(** * LOCI (Local Correlation Integral) outlier scores: pyod/models/loci.py

    A shallow embedding of the class [LOCI] and the properties of its scoring
    procedure.

    Numbers.  The distance matrix holds numpy doubles; every double is a
    rational, so a matrix entry, [alpha] and [k] are modelled in [Q] and the
    comparisons, the division by [alpha] and the product [r * alpha] are exact
    (rounding is not modelled).  The statistics ([np.mean], [np.std] and the
    quotients built from them) are modelled in [xreal]: an exact real number or
    one of the IEEE special values a numpy division by zero produces.  The sign
    of a zero is not modelled: the only zero divisors met are [n_hat] and
    [sigma_mdef], which are never negative.

    What exact arithmetic leaves out.  A product [r * alpha] of two positive
    doubles can underflow to zero, and a quotient by [alpha = 0] is infinite:
    a statement that rests on the sign of the product takes it as a
    hypothesis on the product, and a statement about [d / alpha] assumes
    [alpha] is not zero.  A comparison of two statistics that are equal as
    reals can go either way once rounded.

    Errors.  An index outside the matrix raises [IndexError] and the maximum of
    an empty matrix raises [ValueError]; both are [None]. *)

From Stdlib Require Import List Arith ZArith QArith Qabs Qreals Reals.
From Stdlib Require Import Lra Lia Permutation Sorted Bool.
Import ListNotations.
Local Open Scope nat_scope.

(** ** Numbers *)

(** The value of a numpy double, rounding apart. *)
Inductive xreal : Type :=
| Fin (x : R)
| PInf
| NInf
| NaN.

Definition Rltb (x y : R) : bool := if Rlt_dec x y then true else false.
Definition Rleb (x y : R) : bool := if Rle_dec x y then true else false.
Definition Reqb (x y : R) : bool := if Req_dec_T x y then true else false.

Definition xneg (a : xreal) : xreal :=
  match a with
  | Fin x => Fin (- x)
  | PInf => NInf
  | NInf => PInf
  | NaN => NaN
  end.

Definition xadd (a b : xreal) : xreal :=
  match a, b with
  | Fin x, Fin y => Fin (x + y)
  | NaN, _ | _, NaN => NaN
  | PInf, NInf | NInf, PInf => NaN
  | PInf, _ | _, PInf => PInf
  | NInf, _ | _, NInf => NInf
  end.

Definition xsub (a b : xreal) : xreal := xadd a (xneg b).

(** The infinity of the sign of [x], [NaN] for zero. *)
Definition signed_inf (x : R) : xreal :=
  if Reqb x 0 then NaN else if Rltb 0 x then PInf else NInf.

Definition xmul (a b : xreal) : xreal :=
  match a, b with
  | Fin x, Fin y => Fin (x * y)
  | NaN, _ | _, NaN => NaN
  | Fin x, PInf | PInf, Fin x => signed_inf x
  | Fin x, NInf | NInf, Fin x => signed_inf (- x)
  | PInf, PInf | NInf, NInf => PInf
  | PInf, NInf | NInf, PInf => NaN
  end.

(** Division as numpy performs it on doubles: dividing by zero raises nothing,
    it yields an infinity, or [NaN] for [0 / 0]. *)
Definition xdiv (a b : xreal) : xreal :=
  match a, b with
  | Fin x, Fin y => if Reqb y 0 then signed_inf x else Fin (x / y)
  | NaN, _ | _, NaN => NaN
  | Fin _, _ => Fin 0
  | PInf, Fin y => if Rltb y 0 then NInf else PInf
  | NInf, Fin y => if Rltb y 0 then PInf else NInf
  | _, _ => NaN
  end.

Definition xsqrt (a : xreal) : xreal :=
  match a with
  | Fin x => if Rltb x 0 then NaN else Fin (sqrt x)
  | PInf => PInf
  | _ => NaN
  end.

(** [a < b]; a comparison with [NaN] is false. *)
Definition xlt (a b : xreal) : bool :=
  match a, b with
  | Fin x, Fin y => Rltb x y
  | NaN, _ | _, NaN => false
  | _, NInf => false
  | NInf, _ => true
  | PInf, _ => false
  | _, PInf => true
  end.

Definition xle (a b : xreal) : bool :=
  match a, b with
  | Fin x, Fin y => Rleb x y
  | NaN, _ | _, NaN => false
  | NInf, _ => true
  | _, PInf => true
  | _, _ => false
  end.

Definition xgt (a b : xreal) : bool := xlt b a.
Definition xge (a b : xreal) : bool := xle b a.

Definition is_finite (a : xreal) : bool :=
  match a with Fin _ => true | _ => false end.

(** A Python [int] or a numpy integer used where a double is expected. *)
Definition of_int (n : nat) : xreal := Fin (INR n).
(** A configured number ([k]) used where a double is expected. *)
Definition of_Q (q : Q) : xreal := Fin (Q2R q).

(** [np.mean(a)]: the sum over the count; [NaN] (0/0) on an empty array. *)
Definition np_sum (a : list xreal) : xreal := fold_left xadd a (Fin 0).
Definition np_mean (a : list xreal) : xreal := xdiv (np_sum a) (of_int (length a)).
(** [np.std(a)]: the root of the mean squared deviation from the mean. *)
Definition np_std (a : list xreal) : xreal :=
  let m := np_mean a in
  xsqrt (np_mean (map (fun x => xmul (xsub x m) (xsub x m)) a)).

(** Comparisons of matrix entries. *)
Definition Qltb (x y : Q) : bool := negb (Qle_bool y x).
Definition Qleb (x y : Q) : bool := Qle_bool x y.

(** ** Arrays *)

Definition matrix : Type := list (list Q).

(** [dist_matrix[i, :]] *)
Definition row (dist_matrix : matrix) (i : nat) : option (list Q) :=
  nth_error dist_matrix i.

(** [a[mask]]: the entries of [a] where the mask holds. *)
Fixpoint select {A : Type} (mask : list bool) (a : list A) : list A :=
  match mask, a with
  | b :: mask', x :: a' => if b then x :: select mask' a' else select mask' a'
  | _, _ => []
  end.

(** [np.nonzero(mask)[0]]: the positions where the mask holds, ascending. *)
Fixpoint nonzero_from (i : nat) (mask : list bool) : list nat :=
  match mask with
  | [] => []
  | b :: mask' => if b then i :: nonzero_from (S i) mask' else nonzero_from (S i) mask'
  end.
Definition nonzero (mask : list bool) : list nat := nonzero_from 0 mask.

(** [np.count_nonzero(mask)] *)
Fixpoint count_nonzero (mask : list bool) : nat :=
  match mask with
  | [] => 0
  | b :: mask' => if b then S (count_nonzero mask') else count_nonzero mask'
  end.

(** [np.sort(a)], ascending. *)
Fixpoint insert_sorted (x : Q) (l : list Q) : list Q :=
  match l with
  | [] => [x]
  | y :: l' => if Qleb x y then x :: l else y :: insert_sorted x l'
  end.
Fixpoint np_sort (a : list Q) : list Q :=
  match a with
  | [] => []
  | x :: a' => insert_sorted x (np_sort a')
  end.

(** [a.max()] of a flattened array: [ValueError] when it is empty. *)
Definition np_max (a : list Q) : option Q :=
  match a with
  | [] => None
  | x :: a' => Some (fold_left (fun m y => if Qleb m y then y else m) a' x)
  end.

(** Every element of [l] through [f]; the first error wins. *)
Fixpoint traverse {A B : Type} (f : A -> option B) (l : list A) : option (list B) :=
  match l with
  | [] => Some []
  | x :: l' =>
      match f x with
      | None => None
      | Some y =>
          match traverse f l' with
          | None => None
          | Some ys => Some (y :: ys)
          end
      end
  end.

(** ** The detector *)

(** What [fit] stores. *)
Record fitted : Type := mkFitted {
  decision_scores_ : list xreal;
  labels_ : list nat;
  _mu : xreal;
  _sigma : xreal
}.

(** [self]: [__init__(contamination, alpha, k)] sets the first three fields,
    [fit] the last. *)
Record LOCI : Type := mkLOCI {
  contamination : Q;
  _alpha : Q;
  threshold_ : Q;
  fitted_ : option fitted
}.

Definition LOCI_init (contamination alpha k : Q) : LOCI :=
  mkLOCI contamination alpha k None.

(** The argument [indices] of [_get_alpha_n] is a Python [int] or an index
    array, and its result an integer or an array of integers. *)
Inductive indices : Type :=
| Int (i : nat)
| Arr (ix : list nat).

Inductive counts : Type :=
| CInt (n : nat)
| CArr (ns : list nat).

Definition _get_critical_values (self : LOCI) (dist_matrix : matrix)
    (p_ix : nat) (r_max r_min : Q) : option (list Q) :=
  match row dist_matrix p_ix with
  | None => None
  | Some distances =>
      let mask := map (fun d => Qltb r_min d && Qleb d r_max) distances in
      Some (np_sort (select mask distances
                     ++ map (fun d => d / _alpha self)%Q (select mask distances)))
  end.

Definition _get_sampling_N (self : LOCI) (dist_matrix : matrix)
    (p_ix : nat) (r : Q) : option (list nat) :=
  match row dist_matrix p_ix with
  | None => None
  | Some p_distances => Some (nonzero (map (fun d => Qleb d r) p_distances))
  end.

Definition _get_alpha_n (self : LOCI) (dist_matrix : matrix)
    (ix : indices) (r : Q) : option counts :=
  match ix with
  | Int i =>
      match row dist_matrix i with
      | None => None
      | Some ds =>
          Some (CInt (count_nonzero (map (fun d => Qltb d (r * _alpha self)%Q) ds)))
      end
  | Arr ix =>
      match traverse (row dist_matrix) ix with
      | None => None
      | Some rows =>
          Some (CArr (map (fun ds =>
                  count_nonzero (map (fun d => Qltb d (r * _alpha self)%Q) ds)) rows))
      end
  end.

(** The body of [for r in critical_values] at one radius: [n_hat], [mdef] and
    [sigma_mdef], computed before the guard is looked at. *)
Record radius_stats : Type := mkStats {
  n_hat : xreal;
  mdef : xreal;
  sigma_mdef : xreal
}.

Definition stats_of (n_values : list nat) (cur_alpha_n : nat) : radius_stats :=
  let n_hat := np_mean (map of_int n_values) in
  mkStats n_hat
          (xsub (Fin 1) (xdiv (of_int cur_alpha_n) n_hat))
          (xdiv (np_std (map of_int n_values)) n_hat).

(** The counts the loop body takes at the radius [r]: [n_values] and
    [cur_alpha_n]. *)
Definition counts_at (self : LOCI) (dist_matrix : matrix) (p_ix : nat) (r : Q)
    : option (list nat * nat) :=
  match _get_sampling_N self dist_matrix p_ix r with
  | None => None
  | Some sample =>
      match _get_alpha_n self dist_matrix (Arr sample) r,
            _get_alpha_n self dist_matrix (Int p_ix) r with
      | Some (CArr n_values), Some (CInt cur_alpha_n) =>
          Some (n_values, cur_alpha_n)
      | _, _ => None
      end
  end.

Definition stats_at (self : LOCI) (dist_matrix : matrix) (p_ix : nat) (r : Q)
    : option radius_stats :=
  match counts_at self dist_matrix p_ix r with
  | None => None
  | Some (n_values, cur_alpha_n) => Some (stats_of n_values cur_alpha_n)
  end.

(** [n_hat >= 20] *)
Definition guard (s : radius_stats) : bool := xge (n_hat s) (Fin 20).
(** [mdef > (self.threshold_ * sigma_mdef)] *)
Definition early_exit (self : LOCI) (s : radius_stats) : bool :=
  xgt (mdef s) (xmul (of_Q (threshold_ self)) (sigma_mdef s)).
(** [mdef / sigma_mdef] *)
Definition ratio (s : radius_stats) : xreal := xdiv (mdef s) (sigma_mdef s).

(** The loop [for r in critical_values] of one point; [score] is the cell
    [outlier_scores[p_ix]], and returning without the recursive call is the
    [break]. *)
Fixpoint scan_radii (self : LOCI) (dist_matrix : matrix) (p_ix : nat)
    (critical_values : list Q) (score : xreal) : option xreal :=
  match critical_values with
  | [] => Some score
  | r :: rest =>
      match stats_at self dist_matrix p_ix r with
      | None => None
      | Some s =>
          if guard s then
            if early_exit self s then Some (ratio s)
            else scan_radii self dist_matrix p_ix rest (ratio s)
          else scan_radii self dist_matrix p_ix rest score
      end
  end.

(** One iteration of [for p_ix in range(X.shape[0])]: the final content of
    the cell [outlier_scores[p_ix]], which no other iteration writes. *)
Definition point_score (self : LOCI) (dist_matrix : matrix) (r_max : Q)
    (p_ix : nat) : option xreal :=
  match _get_critical_values self dist_matrix p_ix r_max 0 with
  | None => None
  | Some critical_values =>
      scan_radii self dist_matrix p_ix critical_values (Fin 0)
  end.

(** [r_max = dist_matrix.max() / self._alpha] *)
Definition r_max_of (self : LOCI) (dist_matrix : matrix) : option Q :=
  match np_max (concat dist_matrix) with
  | None => None
  | Some max_dist => Some (max_dist / _alpha self)%Q
  end.

(** [_calculate_decision_score(X)].  [X] enters only through
    [squareform(pdist(X, metric="euclidean"))], computed by scipy: the
    argument is that matrix, and [X.shape[0]] is its number of rows. *)
Definition _calculate_decision_score (self : LOCI) (dist_matrix : matrix)
    : option (list xreal) :=
  match r_max_of self dist_matrix with
  | None => None
  | Some r_max =>
      traverse (point_score self dist_matrix r_max) (seq 0 (length dist_matrix))
  end.

(** [(self.decision_scores_ > self.threshold_).astype('int')] *)
Definition label_of (self : LOCI) (score : xreal) : nat :=
  if xgt score (of_Q (threshold_ self)) then 1 else 0.

(** [fit(X)], on the distance matrix of the validated [X].  The call
    [self._set_n_classes(y)] belongs to the base class [BaseDetector], which
    touches none of the fields below. *)
Definition fit (self : LOCI) (dist_matrix : matrix) : option LOCI :=
  match _calculate_decision_score self dist_matrix with
  | None => None
  | Some outlier_scores =>
      Some (mkLOCI (contamination self) (_alpha self) (threshold_ self)
              (Some (mkFitted outlier_scores
                       (map (label_of self) outlier_scores)
                       (np_mean outlier_scores)
                       (np_std outlier_scores))))
  end.

(** [decision_function(X)]: [check_is_fitted] refuses a detector that was not
    fitted; the scores of [X] depend on [alpha] and [k] only. *)
Definition decision_function (self : LOCI) (dist_matrix : matrix)
    : option (list xreal) :=
  match fitted_ self with
  | None => None
  | Some _ => _calculate_decision_score self dist_matrix
  end.

(** The distance matrix of a dataset of one feature: the Euclidean distance of
    [a] and [b] is [|a - b|]. *)
Definition pdist_squareform_1d (X : list Q) : matrix :=
  map (fun a => map (fun b => Qabs (a - b)) X) X.

(** What [squareform(pdist(X))] guarantees: [N] rows of [N] entries, zero on
    the diagonal. *)
Definition square (D : matrix) : Prop :=
  Forall (fun ds => length ds = length D) D.
Definition entry (D : matrix) (i j : nat) : option Q :=
  match row D i with
  | None => None
  | Some ds => nth_error ds j
  end.
Definition zero_diagonal (D : matrix) : Prop :=
  forall i, i < length D -> exists d, entry D i i = Some d /\ (d == 0)%Q.

(** [js] are, without repetition, the positions of [ds] whose entry is in
    relation [rel] with [bound]. *)
Definition positions_where (ds : list Q) (rel : Q -> Q -> Prop) (bound : Q)
    (js : list nat) : Prop :=
  NoDup js /\
  forall j, In j js <-> exists d, nth_error ds j = Some d /\ rel d bound.

(** The detector with the default parameters, [LOCI()]. *)
Definition default_LOCI : LOCI := LOCI_init (1 # 10) (1 # 2) 3.

(** The sum of a list of reals. *)
Definition Rsum (l : list R) : R := fold_right Rplus 0%R l.

(** The integers that decide the tests of one radius, from the counts
    [n_values] (of sum [S] and length [n]) and [cur_alpha_n]:
    [n^2] times the variance of [n_values], and [S - cur_alpha_n * n], which
    is [S * mdef]. *)
Definition spread (n_values : list nat) : Z :=
  (Z.of_nat (length n_values) * Z.of_nat (list_sum (map (fun v => (v * v)%nat) n_values))
   - Z.of_nat (list_sum n_values) * Z.of_nat (list_sum n_values))%Z.
Definition deficit (n_values : list nat) (cur_alpha_n : nat) : Z :=
  (Z.of_nat (list_sum n_values) - Z.of_nat cur_alpha_n * Z.of_nat (length n_values))%Z.

(** The guard and the early exit decided on integers. *)
Definition guard_dec (n_values : list nat) : bool :=
  (0 <? length n_values) && (20 * length n_values <=? list_sum n_values).
Definition exit_dec (k : Q) (n_values : list nat) (cur_alpha_n : nat) : bool :=
  let a := Qnum k in
  let b := (Zpos (Qden k) * deficit n_values cur_alpha_n)%Z in
  if (0 <=? a)%Z
  then (0 <? b)%Z && (a * a * spread n_values <? b * b)%Z
  else (0 <? b)%Z || (b * b <? a * a * spread n_values)%Z.

(** The scan of one point decided on integers: the counts of the radius
    whose ratio is the final score, [last] when no radius of the list writes
    the score. *)
Fixpoint scan_dec (self : LOCI) (D : matrix) (p : nat) (cvs : list Q)
    (last : option (list nat * nat)) : option (option (list nat * nat)) :=
  match cvs with
  | [] => Some last
  | r :: rest =>
      match counts_at self D p r with
      | None => None
      | Some (nv, c) =>
          if guard_dec nv then
            if exit_dec (threshold_ self) nv c then Some (Some (nv, c))
            else scan_dec self D p rest (Some (nv, c))
          else scan_dec self D p rest last
      end
  end.

Definition score_of (last : option (list nat * nat)) (score : xreal) : xreal :=
  match last with
  | None => score
  | Some (nv, c) => ratio (stats_of nv c)
  end.

(** No radius of [cvs] makes the scan of [p] stop: each is evaluated, and
    fails the guard or the early-exit test. *)
Definition no_exit (self : LOCI) (D : matrix) (p : nat) (cvs : list Q) : Prop :=
  forall r, In r cvs ->
    exists st, stats_at self D p r = Some st /\
               guard st && early_exit self st = false.

(** No radius of [cvs] satisfies the guard. *)
Definition no_guard (self : LOCI) (D : matrix) (p : nat) (cvs : list Q) : Prop :=
  forall r, In r cvs ->
    exists st, stats_at self D p r = Some st /\ guard st = false.

(** [st] are the statistics of the last radius of [cvs] that the scan of [p]
    processes and that satisfies the guard: the scan reaches it, and there it
    stops, or no later radius satisfies the guard. *)
Definition last_guarded (self : LOCI) (D : matrix) (p : nat) (cvs : list Q)
    (st : radius_stats) : Prop :=
  exists pre r post,
    cvs = pre ++ r :: post /\
    no_exit self D p pre /\
    stats_at self D p r = Some st /\ guard st = true /\
    (early_exit self st = true \/ no_guard self D p post).

(** The words of the data model: the score is the maximum of the ratios over
    the tested radii that satisfy the guard, and [0] when none does. *)
Definition max_guarded_ratio (self : LOCI) (D : matrix) (p : nat) (cvs : list Q)
    (score : xreal) : Prop :=
  (no_guard self D p cvs /\ score = Fin 0) \/
  ((exists r st, In r cvs /\ stats_at self D p r = Some st /\
                 guard st = true /\ score = ratio st) /\
   forall r st, In r cvs -> stats_at self D p r = Some st -> guard st = true ->
                xle (ratio st) score = true).

(** The scan of the point [p] in a scoring run, decided on integers. *)
Definition final_counts (self : LOCI) (D : matrix) (p : nat)
    : option (option (list nat * nat)) :=
  match r_max_of self D with
  | None => None
  | Some r_max =>
      match _get_critical_values self D p r_max 0 with
      | None => None
      | Some cv => scan_dec self D p cv None
      end
  end.

(** Three datasets of one feature: 21 points at 0 and one at 1; 23 points at
    0, three at 1 and one at 3; 20 points at 0 and 20 at 1. *)
Definition X22 : list Q := repeat 0%Q 21 ++ [1%Q].
Definition X27 : list Q := repeat 0%Q 23 ++ repeat 1%Q 3 ++ [3%Q].
Definition X40 : list Q := repeat 0%Q 20 ++ repeat 1%Q 20.
Definition D22 : matrix := pdist_squareform_1d X22.
Definition D27 : matrix := pdist_squareform_1d X27.
Definition D40 : matrix := pdist_squareform_1d X40.

(** The critical values of the point 23 of [X27] (its feature is 1) in a
    scoring run: its distances 1 (23 times) and 2, and their doubles. *)
Definition cv27 : list Q := repeat 1%Q 23 ++ repeat 2%Q 24 ++ [4%Q].

(** A list of radii without its repetitions of the previous radius. *)
Fixpoint uniq (cvs : list Q) : list Q :=
  match cvs with
  | [] => []
  | r :: rest =>
      match rest with
      | [] => [r]
      | r' :: _ => if Qeq_bool r r' then uniq rest else r :: uniq rest
      end
  end.

(** What [fit] stores on a dataset of [n] points that are all scored [0] and
    labelled [label]. *)
Definition all_zero_fit (n label : nat) : fitted :=
  mkFitted (repeat (Fin 0) n) (repeat label n) (Fin 0) (Fin 0).

(** A dataset of one feature: 16 points at 0, seven at 1 and one at 5. *)
Definition X24 : list Q := repeat 0%Q 16 ++ repeat 1%Q 7 ++ [5%Q].
Definition D24 : matrix := pdist_squareform_1d X24.

(** ** Arrays: basic facts *)

Lemma Qltb_lt (x y : Q) : Qltb x y = true <-> (x < y)%Q.
Proof.
  unfold Qltb. rewrite negb_true_iff, <- not_true_iff_false, Qle_bool_iff.
  split; [apply Qnot_le_lt | apply Qlt_not_le].
Qed.

Lemma Qleb_le (x y : Q) : Qleb x y = true <-> (x <= y)%Q.
Proof. apply Qle_bool_iff. Qed.

Lemma select_filter {A : Type} (f : A -> bool) (a : list A) :
  select (map f a) a = filter f a.
Proof.
  induction a as [|x a IH]; simpl; [reflexivity|].
  rewrite IH. reflexivity.
Qed.

Lemma nonzero_from_In (mask : list bool) :
  forall i j, In j (nonzero_from i mask) <->
              exists k, j = i + k /\ nth_error mask k = Some true.
Proof.
  induction mask as [|b mask IH]; intros i j; simpl.
  - split; [intros [] | intros [[|k] [_ H]]; discriminate].
  - assert (Hshift : In j (nonzero_from (S i) mask) <->
                     exists k, j = i + S k /\ nth_error mask k = Some true).
    { rewrite IH. split; intros [k [E H]]; exists k; split; auto; lia. }
    destruct b; simpl; rewrite ?Hshift; split.
    + intros [E | [k [E H]]]; [exists 0; split; [lia | reflexivity] | exists (S k); auto].
    + intros [[|k] [E H]]; [left; lia | right; exists k; auto].
    + intros [k [E H]]; exists (S k); auto.
    + intros [[|k] [E H]]; [discriminate | exists k; auto].
Qed.

Lemma nonzero_from_lower (mask : list bool) :
  forall i j, In j (nonzero_from i mask) -> i <= j.
Proof.
  intros i j H. apply nonzero_from_In in H. destruct H as [k [E _]]. lia.
Qed.

Lemma nonzero_from_NoDup (mask : list bool) :
  forall i, NoDup (nonzero_from i mask).
Proof.
  induction mask as [|b mask IH]; intros i; simpl; [constructor|].
  destruct b; [|apply IH].
  constructor; [|apply IH].
  intros H. apply nonzero_from_lower in H. lia.
Qed.

Lemma nonzero_from_length (mask : list bool) :
  forall i, length (nonzero_from i mask) = count_nonzero mask.
Proof.
  induction mask as [|b mask IH]; intros i; simpl; [reflexivity|].
  destruct b; simpl; rewrite IH; reflexivity.
Qed.

Lemma count_nonzero_le (mask : list bool) : count_nonzero mask <= length mask.
Proof.
  induction mask as [|b mask IH]; simpl; [lia|]. destruct b; lia.
Qed.

Lemma nonzero_In_map (f : Q -> bool) (ds : list Q) (j : nat) :
  In j (nonzero (map f ds)) <-> exists d, nth_error ds j = Some d /\ f d = true.
Proof.
  unfold nonzero. rewrite nonzero_from_In. split.
  - intros [k [E H]]. simpl in E. subst k.
    rewrite nth_error_map in H.
    destruct (nth_error ds j) as [d|]; [|discriminate].
    exists d. split; [reflexivity|]. simpl in H. congruence.
  - intros [d [H Hf]]. exists j. split; [reflexivity|].
    rewrite nth_error_map, H. simpl. congruence.
Qed.

Lemma traverse_length {A B : Type} (f : A -> option B) (l : list A) :
  forall ys, traverse f l = Some ys -> length ys = length l.
Proof.
  induction l as [|x l IH]; simpl; intros ys H.
  - injection H as <-. reflexivity.
  - destruct (f x); [|discriminate].
    destruct (traverse f l) as [zs|]; [|discriminate].
    injection H as <-. simpl. rewrite (IH zs eq_refl). reflexivity.
Qed.

Lemma traverse_nth {A B : Type} (f : A -> option B) (l : list A) :
  forall ys, traverse f l = Some ys ->
  forall i x, nth_error l i = Some x -> nth_error ys i = f x.
Proof.
  induction l as [|a l IH]; simpl; intros ys H i x Hi.
  - destruct i; discriminate.
  - destruct (f a) as [b|] eqn:Ea; [|discriminate].
    destruct (traverse f l) as [zs|]; [|discriminate].
    injection H as <-. destruct i as [|i]; simpl in *.
    + injection Hi as <-. symmetry. exact Ea.
    + apply (IH zs eq_refl i x Hi).
Qed.

Lemma traverse_total {A B : Type} (f : A -> option B) (g : A -> B) (l : list A) :
  (forall x, In x l -> f x = Some (g x)) -> traverse f l = Some (map g l).
Proof.
  induction l as [|a l IH]; simpl; intros H; [reflexivity|].
  rewrite (H a (or_introl eq_refl)), IH; auto.
Qed.

Lemma traverse_Forall2 {A B : Type} (f : A -> option B) (l : list A) :
  forall ys, traverse f l = Some ys -> Forall2 (fun x y => f x = Some y) l ys.
Proof.
  induction l as [|a l IH]; simpl; intros ys H.
  - injection H as <-. constructor.
  - destruct (f a) as [b|] eqn:Ea; [|discriminate].
    destruct (traverse f l) as [zs|]; [|discriminate].
    injection H as <-. constructor; auto.
Qed.

(** ** The neighbourhood counter *)

Lemma sampling_positions (self : LOCI) (D : matrix) (p : nat) (r : Q) (ds : list Q) :
  row D p = Some ds ->
  exists sample, _get_sampling_N self D p r = Some sample /\
                 positions_where ds Qle r sample.
Proof.
  intros Hrow. unfold _get_sampling_N. rewrite Hrow.
  eexists; split; [reflexivity|]. split.
  - apply nonzero_from_NoDup.
  - intros j. rewrite nonzero_In_map.
    split; intros [d [H Hd]]; exists d; split; auto; apply Qleb_le; exact Hd.
Qed.





(** C7.  The alpha count of the index [i] in the scalar mode is the single
    entry of the alpha count of the one-element batch [[i]]; the one fails
    (the index is outside the matrix) exactly when the other does. *)
Theorem alpha_n_scalar_batch_agree (self : LOCI) (D : matrix) (i : nat) (r : Q) :
  _get_alpha_n self D (Arr [i]) r =
  match _get_alpha_n self D (Int i) r with
  | Some (CInt n) => Some (CArr [n])
  | _ => None
  end.
Proof.
  unfold _get_alpha_n. simpl.
  destruct (row D i) as [ds|]; reflexivity.
Qed.

Lemma count_nonzero_pos (f : Q -> bool) (ds : list Q) (j : nat) (d : Q) :
  nth_error ds j = Some d -> f d = true -> 1 <= count_nonzero (map f ds).
Proof.
  revert j. induction ds as [|x ds IH]; intros [|j] H Hf; simpl in *; try discriminate.
  - injection H as ->. rewrite Hf. lia.
  - specialize (IH j H Hf). destruct (f x); lia.
Qed.

Lemma square_row_length (D : matrix) (i : nat) (ds : list Q) :
  square D -> row D i = Some ds -> length ds = length D.
Proof.
  intros Hsq Hrow. unfold square in Hsq. rewrite Forall_forall in Hsq.
  apply Hsq. apply (nth_error_In D i). exact Hrow.
Qed.

Lemma row_count_bounds (self : LOCI) (D : matrix) (i : nat) (r : Q) (ds : list Q) :
  square D -> row D i = Some ds ->
  count_nonzero (map (fun d => Qltb d (r * _alpha self)%Q) ds) <= length D /\
  (zero_diagonal D -> (0 < r * _alpha self)%Q ->
   1 <= count_nonzero (map (fun d => Qltb d (r * _alpha self)%Q) ds)).
Proof.
  intros Hsq Hrow. split.
  - rewrite <- (square_row_length D i ds Hsq Hrow).
    etransitivity; [apply count_nonzero_le|]. rewrite length_map. apply Nat.le_refl.
  - intros Hz Hb.
    assert (Hi : i < length D).
    { apply nth_error_Some. unfold row in Hrow. rewrite Hrow. discriminate. }
    destruct (Hz i Hi) as [d [Hd Hd0]]. unfold entry in Hd. rewrite Hrow in Hd.
    apply (count_nonzero_pos _ ds i d Hd).
    apply Qltb_lt. rewrite Hd0. exact Hb.
Qed.

(** The bounds of the alpha counts of a batch, on a square matrix. *)
Lemma batch_counts_in_range (self : LOCI) (D : matrix) (r : Q)
    (ix ns : list nat) :
  square D ->
  _get_alpha_n self D (Arr ix) r = Some (CArr ns) ->
  Forall (fun n => n <= length D /\
    (zero_diagonal D -> (0 < r * _alpha self)%Q -> 1 <= n)) ns.
Proof.
  intros Hsq H. unfold _get_alpha_n in H.
  destruct (traverse (row D) ix) as [rows|] eqn:Et; [|discriminate].
  injection H as <-. apply traverse_Forall2 in Et.
  induction Et as [|i ds ix' rows' Hi _ IH]; simpl; constructor; [|exact IH].
  apply (row_count_bounds self D i r ds Hsq Hi).
Qed.

(** C4, as the code has it.  The alpha count, in the scalar mode and entry by
    entry in the batch mode, lies in [[0, N]]; and when the matrix has a zero
    diagonal and the bound [r * alpha] that the code computes is strictly
    positive, every point counts itself ([D[i][i] = 0 < r * alpha]), so the
    count lies in [[1, N]].  The condition is on the product itself: in
    binary64 it can be zero for positive [r] and [alpha], by underflow, and
    the count is then [0]. *)
Theorem alpha_count_bounds (self : LOCI) (D : matrix) (r : Q) :
  square D ->
  (forall i n, _get_alpha_n self D (Int i) r = Some (CInt n) ->
     n <= length D /\
     (zero_diagonal D -> (0 < r * _alpha self)%Q -> 1 <= n)) /\
  (forall ix ns, _get_alpha_n self D (Arr ix) r = Some (CArr ns) ->
     Forall (fun n => n <= length D /\
       (zero_diagonal D -> (0 < r * _alpha self)%Q -> 1 <= n)) ns).
Proof.
  intros Hsq. split.
  - intros i n H. unfold _get_alpha_n in H.
    destruct (row D i) as [ds|] eqn:Hrow; [|discriminate].
    injection H as <-. apply (row_count_bounds self D i r ds Hsq Hrow).
  - intros ix ns H. apply (batch_counts_in_range self D r ix ns Hsq H).
Qed.

Lemma alpha_count_bounds_witness :
  square (pdist_squareform_1d [0; 1]%Q) /\
  (forall i n, _get_alpha_n default_LOCI (pdist_squareform_1d [0; 1]%Q) (Int i) 1
               = Some (CInt n) ->
     n <= 2 /\
     (zero_diagonal (pdist_squareform_1d [0; 1]%Q) ->
      (0 < 1 * _alpha default_LOCI)%Q -> 1 <= n)).
Proof.
  assert (Hsq : square (pdist_squareform_1d [0; 1]%Q)).
  { repeat constructor. }
  split; [exact Hsq|].
  apply (alpha_count_bounds default_LOCI (pdist_squareform_1d [0; 1]%Q) 1 Hsq).
Defined.

(** C4, as the claim states it, fails: in the dataset of the single point [0],
    at [r = 1] with the default [alpha], the point counts itself, and its
    alpha count [1] exceeds [N - 1 = 0]. *)
Lemma alpha_count_exceeds_N_minus_1 :
  _get_alpha_n default_LOCI (pdist_squareform_1d [0]%Q) (Int 0) 1 = Some (CInt 1) /\
  ~ (1 <= length (pdist_squareform_1d [0]%Q) - 1).
Proof.
  split; [vm_compute; reflexivity | simpl; lia].
Qed.

(** ** The critical radius extractor *)

Lemma insert_sorted_perm (x : Q) (l : list Q) : Permutation (insert_sorted x l) (x :: l).
Proof.
  induction l as [|y l IH]; simpl; [reflexivity|].
  destruct (Qleb x y); [reflexivity|].
  rewrite IH. apply perm_swap.
Qed.

Lemma np_sort_perm (a : list Q) : Permutation (np_sort a) a.
Proof.
  induction a as [|x a IH]; simpl; [reflexivity|].
  rewrite insert_sorted_perm. constructor. exact IH.
Qed.

Lemma insert_sorted_sorted (x : Q) (l : list Q) :
  StronglySorted Qle l -> StronglySorted Qle (insert_sorted x l).
Proof.
  induction l as [|y l IH]; simpl; intros Hs.
  - repeat constructor.
  - inversion Hs as [|y' l' Hl Hy]; subst.
    destruct (Qleb x y) eqn:E.
    + apply Qleb_le in E. constructor; [exact Hs|].
      constructor; [exact E|].
      rewrite Forall_forall in *. intros z Hz.
      apply Qle_trans with y; auto.
    + assert (Hyx : (y <= x)%Q).
      { apply Qlt_le_weak, Qltb_lt. unfold Qltb. unfold Qleb in E. rewrite E. reflexivity. }
      constructor; [apply IH; exact Hl|].
      rewrite Forall_forall in *. intros z Hz.
      apply (Permutation_in _ (insert_sorted_perm x l)) in Hz.
      destruct Hz as [<- | Hz]; auto.
Qed.

Lemma np_sort_sorted (a : list Q) : StronglySorted Qle (np_sort a).
Proof.
  induction a as [|x a IH]; simpl; [constructor | apply insert_sorted_sorted, IH].
Qed.

Lemma fold_max_spec (a : list Q) :
  forall x, let m := fold_left (fun m y => if Qleb m y then y else m) a x in
            In m (x :: a) /\ (x <= m)%Q /\ forall d, In d a -> (d <= m)%Q.
Proof.
  induction a as [|y a IH]; intros x; simpl.
  - split; [left; reflexivity|]. split; [apply Qle_refl | intros d []].
  - destruct (Qleb x y) eqn:E.
    + destruct (IH y) as [Hin [Hle Hall]]. apply Qleb_le in E.
      split; [right; exact Hin|]. split; [apply Qle_trans with y; assumption|].
      intros d [<- | Hd]; auto.
    + destruct (IH x) as [Hin [Hle Hall]].
      assert (Hyx : (y <= x)%Q).
      { apply Qlt_le_weak, Qltb_lt. unfold Qltb. unfold Qleb in E. rewrite E. reflexivity. }
      split; [destruct Hin as [<- | Hin]; [left; reflexivity | right; right; exact Hin]|].
      split; [exact Hle|].
      intros d [<- | Hd]; [apply Qle_trans with x; assumption | auto].
Qed.

Lemma np_max_spec (a : list Q) (m : Q) :
  np_max a = Some m -> In m a /\ forall d, In d a -> (d <= m)%Q.
Proof.
  destruct a as [|x a]; simpl; intros H; [discriminate|].
  injection H as <-. destruct (fold_max_spec a x) as [Hin [Hle Hall]].
  split; [exact Hin|]. intros d [<- | Hd]; auto.
Qed.

Lemma calculate_nth (self : LOCI) (D : matrix) (scores : list xreal) :
  _calculate_decision_score self D = Some scores ->
  exists max_dist,
    np_max (concat D) = Some max_dist /\
    length scores = length D /\
    forall p, p < length D ->
      nth_error scores p = point_score self D (max_dist / _alpha self)%Q p.
Proof.
  unfold _calculate_decision_score, r_max_of. intros H.
  destruct (np_max (concat D)) as [max_dist|]; [|discriminate].
  exists max_dist. split; [reflexivity|]. split.
  - rewrite (traverse_length _ _ _ H). apply length_seq.
  - intros p Hp. apply (traverse_nth _ _ _ H).
    rewrite nth_error_seq. destruct (Nat.ltb_spec p (length D)); [reflexivity | lia].
Qed.

(** ** The statistics of one radius *)

Lemma Reqb_true (x y : R) : x = y -> Reqb x y = true.
Proof. intros H. unfold Reqb. destruct (Req_dec_T x y); [reflexivity | contradiction]. Qed.

Lemma Reqb_false (x y : R) : x <> y -> Reqb x y = false.
Proof. intros H. unfold Reqb. destruct (Req_dec_T x y); [contradiction | reflexivity]. Qed.

Lemma Rltb_true (x y : R) : (x < y)%R -> Rltb x y = true.
Proof. intros H. unfold Rltb. destruct (Rlt_dec x y); [reflexivity | contradiction]. Qed.

Lemma Rltb_false (x y : R) : (y <= x)%R -> Rltb x y = false.
Proof. intros H. unfold Rltb. destruct (Rlt_dec x y); [lra | reflexivity]. Qed.

Lemma Rleb_true (x y : R) : (x <= y)%R -> Rleb x y = true.
Proof. intros H. unfold Rleb. destruct (Rle_dec x y); [reflexivity | contradiction]. Qed.

Lemma Rleb_false (x y : R) : (y < x)%R -> Rleb x y = false.
Proof. intros H. unfold Rleb. destruct (Rle_dec x y); [lra | reflexivity]. Qed.

Lemma xadd_fold_Fin (rs : list R) :
  forall a, fold_left xadd (map Fin rs) (Fin a) = Fin (a + Rsum rs).
Proof.
  induction rs as [|x rs IH]; intros a; simpl.
  - f_equal. lra.
  - rewrite IH. f_equal. lra.
Qed.

Lemma np_sum_Fin (rs : list R) : np_sum (map Fin rs) = Fin (Rsum rs).
Proof. unfold np_sum. rewrite xadd_fold_Fin. f_equal. lra. Qed.

Lemma np_mean_nil : np_mean [] = NaN.
Proof.
  unfold np_mean, np_sum, of_int, xdiv, signed_inf. simpl.
  rewrite !Reqb_true; reflexivity.
Qed.

Lemma INR_length_pos {A : Type} (l : list A) : l <> [] -> (0 < INR (length l))%R.
Proof.
  destruct l; [congruence|]. intros _. apply lt_0_INR. simpl. lia.
Qed.

Lemma np_mean_Fin (rs : list R) :
  rs <> [] -> np_mean (map Fin rs) = Fin (Rsum rs / INR (length rs)).
Proof.
  intros Hne. unfold np_mean, of_int, xdiv. rewrite np_sum_Fin, length_map.
  rewrite Reqb_false; [reflexivity|].
  pose proof (INR_length_pos rs Hne). lra.
Qed.

Lemma Rsum_squares_nonneg (rs : list R) (m : R) :
  (0 <= Rsum (map (fun x => (x - m) * (x - m))%R rs))%R.
Proof.
  induction rs as [|x rs IH]; simpl; [lra|].
  pose proof (Rle_0_sqr (x - m)) as H. unfold Rsqr in H. lra.
Qed.

Lemma Rsum_squares_expand (rs : list R) (m : R) :
  (Rsum (map (fun x => (x - m) * (x - m))%R rs) =
   Rsum (map (fun x => x * x)%R rs) - 2 * m * Rsum rs + INR (length rs) * (m * m))%R.
Proof.
  induction rs as [|x rs IH]; [simpl; lra|].
  change (length (x :: rs)) with (S (length rs)). rewrite S_INR.
  simpl. rewrite IH. ring.
Qed.

Lemma np_std_Fin (rs : list R) :
  rs <> [] ->
  np_std (map Fin rs) =
  Fin (sqrt (Rsum (map (fun x => (x - Rsum rs / INR (length rs))
                                 * (x - Rsum rs / INR (length rs)))%R rs)
             / INR (length rs))).
Proof.
  intros Hne. unfold np_std. rewrite (np_mean_Fin rs Hne).
  set (m := (Rsum rs / INR (length rs))%R).
  rewrite map_map. simpl.
  replace (map (fun x => Fin ((x + - m) * (x + - m))%R) rs)
    with (map Fin (map (fun x => (x - m) * (x - m))%R rs))
    by (rewrite map_map; reflexivity).
  assert (Hne' : map (fun x => ((x - m) * (x - m))%R) rs <> []).
  { destruct rs; [congruence | discriminate]. }
  rewrite (np_mean_Fin _ Hne'), length_map. unfold xsqrt.
  rewrite Rltb_false; [reflexivity|].
  pose proof (INR_length_pos rs Hne). pose proof (Rsum_squares_nonneg rs m).
  apply Rmult_le_pos; [assumption|]. apply Rlt_le, Rinv_0_lt_compat. assumption.
Qed.

Lemma of_int_map (nv : list nat) : map of_int nv = map Fin (map INR nv).
Proof. rewrite map_map. reflexivity. Qed.

Lemma Rsum_INR (nv : list nat) : Rsum (map INR nv) = INR (list_sum nv).
Proof.
  induction nv as [|v nv IH]; simpl; [reflexivity|].
  rewrite IH, plus_INR. reflexivity.
Qed.

Lemma Rsum_INR_sq (nv : list nat) :
  Rsum (map (fun x => x * x)%R (map INR nv)) = INR (list_sum (map (fun v => v * v) nv)).
Proof.
  induction nv as [|v nv IH]; simpl; [reflexivity|].
  rewrite IH, plus_INR, mult_INR. reflexivity.
Qed.

Lemma n_hat_nil (c : nat) : n_hat (stats_of [] c) = NaN.
Proof. unfold stats_of. simpl. apply np_mean_nil. Qed.

Lemma n_hat_cons (nv : list nat) (c : nat) :
  nv <> [] ->
  n_hat (stats_of nv c) = Fin (INR (list_sum nv) / INR (length nv)).
Proof.
  intros Hne. unfold stats_of. simpl. rewrite of_int_map.
  rewrite np_mean_Fin by (destruct nv; [congruence | discriminate]).
  rewrite Rsum_INR, length_map. reflexivity.
Qed.

Lemma guard_dec_spec (nv : list nat) :
  guard_dec nv = true <-> nv <> [] /\ 20 * length nv <= list_sum nv.
Proof.
  unfold guard_dec. rewrite andb_true_iff, Nat.ltb_lt, Nat.leb_le.
  destruct nv; simpl; split; intros [H1 H2]; split; try lia; congruence.
Qed.

Lemma guard_stats (nv : list nat) (c : nat) :
  guard (stats_of nv c) = guard_dec nv.
Proof.
  unfold guard, xge. destruct nv as [|v nv'] eqn:E.
  - rewrite n_hat_nil. reflexivity.
  - rewrite <- E. assert (Hne : nv <> []) by (rewrite E; discriminate).
    rewrite (n_hat_cons nv c Hne). simpl.
    pose proof (INR_length_pos nv Hne) as Hn.
    destruct (guard_dec nv) eqn:G.
    + apply guard_dec_spec in G. destruct G as [_ G].
      apply Rleb_true. apply le_INR in G. rewrite mult_INR in G.
      apply Rmult_le_reg_r with (INR (length nv)); [exact Hn|].
      unfold Rdiv. rewrite Rmult_assoc, Rinv_l by lra.
      replace (INR 20) with 20%R in G by (simpl; lra). lra.
    + apply Rleb_false.
      assert (G' : list_sum nv < 20 * length nv).
      { destruct (Nat.le_gt_cases (20 * length nv) (list_sum nv)) as [L|L]; [|exact L].
        exfalso. assert (guard_dec nv = true) by (apply guard_dec_spec; auto).
        congruence. }
      apply lt_INR in G'. rewrite mult_INR in G'.
      replace (INR 20) with 20%R in G' by (simpl; lra).
      apply Rmult_lt_reg_r with (INR (length nv)); [exact Hn|].
      unfold Rdiv. rewrite Rmult_assoc, Rinv_l by lra. lra.
Qed.

Lemma IZR_deficit (nv : list nat) (c : nat) :
  IZR (deficit nv c) = (INR (list_sum nv) - INR c * INR (length nv))%R.
Proof.
  unfold deficit. rewrite minus_IZR, mult_IZR, <- !INR_IZR_INZ. reflexivity.
Qed.

Lemma IZR_spread (nv : list nat) :
  IZR (spread nv) =
  (INR (length nv) * INR (list_sum (map (fun v => (v * v)%nat) nv))
   - INR (list_sum nv) * INR (list_sum nv))%R.
Proof.
  unfold spread. rewrite minus_IZR, !mult_IZR, <- !INR_IZR_INZ. reflexivity.
Qed.

Lemma variance_spread (nv : list nat) :
  nv <> [] ->
  let n := INR (length nv) in
  let m := (INR (list_sum nv) / n)%R in
  (Rsum (map (fun x => (x - m) * (x - m))%R (map INR nv)) / n
   = IZR (spread nv) / (n * n))%R.
Proof.
  intros Hne n m. pose proof (INR_length_pos nv Hne) as Hn. fold n in Hn.
  rewrite Rsum_squares_expand, Rsum_INR_sq, Rsum_INR, length_map, IZR_spread.
  fold n. unfold m. field. lra.
Qed.

Lemma spread_nonneg (nv : list nat) : nv <> [] -> (0 <= IZR (spread nv))%R.
Proof.
  intros Hne. pose proof (variance_spread nv Hne) as H. simpl in H.
  pose proof (INR_length_pos nv Hne) as Hn.
  pose proof (Rsum_squares_nonneg (map INR nv)
                (INR (list_sum nv) / INR (length nv))) as Hs.
  set (n := INR (length nv)) in *.
  assert (Hnn : (0 < n * n)%R) by (apply Rmult_lt_0_compat; assumption).
  replace (IZR (spread nv)) with ((IZR (spread nv) / (n * n)) * (n * n))%R
    by (field; lra).
  rewrite <- H. apply Rmult_le_pos; [|lra].
  apply Rmult_le_pos; [exact Hs|]. apply Rlt_le, Rinv_0_lt_compat. exact Hn.
Qed.

(** Under the guard, the three statistics in closed form. *)
Lemma stats_closed (nv : list nat) (c : nat) :
  guard_dec nv = true ->
  (0 < INR (list_sum nv))%R /\
  stats_of nv c =
  mkStats (Fin (INR (list_sum nv) / INR (length nv)))
          (Fin (IZR (deficit nv c) / INR (list_sum nv)))
          (Fin (sqrt (IZR (spread nv)) / INR (list_sum nv))).
Proof.
  intros G. apply guard_dec_spec in G. destruct G as [Hne G].
  pose proof (INR_length_pos nv Hne) as Hn.
  assert (HS : (0 < INR (list_sum nv))%R).
  { apply lt_0_INR. destruct nv; [congruence|]. simpl in *. lia. }
  split; [exact HS|].
  assert (Hne' : map INR nv <> []) by (destruct nv; [congruence | discriminate]).
  assert (Hm : (INR (list_sum nv) / INR (length nv) <> 0)%R).
  { apply Rgt_not_eq. apply Rmult_lt_0_compat; [exact HS|].
    apply Rinv_0_lt_compat. exact Hn. }
  unfold stats_of. rewrite of_int_map, (np_mean_Fin _ Hne'), (np_std_Fin _ Hne').
  rewrite Rsum_INR, length_map, (variance_spread nv Hne).
  unfold of_int, xsub, xneg, xadd, xdiv. rewrite (Reqb_false _ _ Hm).
  f_equal.
  - f_equal. rewrite IZR_deficit. field. split; lra.
  - f_equal.
    assert (Hnn : (0 < INR (length nv) * INR (length nv))%R)
      by (apply Rmult_lt_0_compat; assumption).
    rewrite sqrt_div_alt by exact Hnn.
    rewrite sqrt_square by lra. field. split; lra.
Qed.

Lemma sqrt_lt_nonneg (a b v : R) :
  (0 <= v)%R -> (0 <= a)%R ->
  ((a * sqrt v < b)%R <-> (0 < b)%R /\ (a * a * v < b * b)%R).
Proof.
  intros Hv Ha. pose proof (sqrt_pos v) as Hs. pose proof (sqrt_sqrt v Hv) as Hss.
  assert (Ht : (0 <= a * sqrt v)%R) by (apply Rmult_le_pos; assumption).
  replace (a * a * v)%R with ((a * sqrt v) * (a * sqrt v))%R
    by (rewrite <- Hss at 3; ring).
  set (t := (a * sqrt v)%R) in *. split.
  - intros H. split; [lra|]. apply Rmult_le_0_lt_compat; assumption.
  - intros [Hb H]. destruct (Rlt_dec t b) as [|N]; [assumption|].
    exfalso. apply Rnot_lt_le in N.
    assert (b * b <= t * t)%R by (apply Rmult_le_compat; lra). lra.
Qed.

Lemma sqrt_lt_neg (a b v : R) :
  (0 <= v)%R -> (a < 0)%R ->
  ((a * sqrt v < b)%R <-> (0 < b)%R \/ (b * b < a * a * v)%R).
Proof.
  intros Hv Ha. pose proof (sqrt_pos v) as Hs. pose proof (sqrt_sqrt v Hv) as Hss.
  assert (Ht : (0 <= (- a) * sqrt v)%R) by (apply Rmult_le_pos; lra).
  replace (a * a * v)%R with (((- a) * sqrt v) * ((- a) * sqrt v))%R
    by (rewrite <- Hss at 3; ring).
  replace (a * sqrt v)%R with (- ((- a) * sqrt v))%R by ring.
  set (t := ((- a) * sqrt v)%R) in *. split.
  - intros H. destruct (Rlt_dec 0 b) as [|N]; [left; assumption|].
    right. apply Rnot_lt_le in N.
    replace (b * b)%R with ((- b) * (- b))%R by ring.
    apply Rmult_le_0_lt_compat; lra.
  - intros [Hb | H]; [lra|].
    destruct (Rlt_dec (- t) b) as [|N]; [assumption|].
    exfalso. apply Rnot_lt_le in N.
    assert (t * t <= (- b) * (- b))%R by (apply Rmult_le_compat; lra).
    replace ((- b) * (- b))%R with (b * b)%R in * by ring. lra.
Qed.

Lemma exit_dec_spec (k : Q) (nv : list nat) (c : nat) :
  nv <> [] ->
  (exit_dec k nv c = true <->
   (IZR (Qnum k) * sqrt (IZR (spread nv)) < IZR (Zpos (Qden k) * deficit nv c))%R).
Proof.
  intros Hne. pose proof (spread_nonneg nv Hne) as Hv. unfold exit_dec.
  set (a := Qnum k). set (b := (Zpos (Qden k) * deficit nv c)%Z).
  set (v := spread nv) in *.
  destruct (Z.leb_spec 0 a) as [Ha | Ha].
  - rewrite (sqrt_lt_nonneg _ _ _ Hv (IZR_le _ _ Ha)).
    rewrite andb_true_iff, !Z.ltb_lt, <- !mult_IZR.
    split; intros [H1 H2]; split;
      first [apply IZR_lt; assumption | apply lt_IZR; assumption].
  - rewrite (sqrt_lt_neg _ _ _ Hv (IZR_lt _ _ Ha)).
    rewrite orb_true_iff, !Z.ltb_lt, <- !mult_IZR.
    split; intros [H | H];
      first [left; apply IZR_lt; assumption | left; apply lt_IZR; assumption
            | right; apply IZR_lt; assumption | right; apply lt_IZR; assumption].
Qed.

Lemma early_exit_stats (self : LOCI) (nv : list nat) (c : nat) :
  guard_dec nv = true ->
  early_exit self (stats_of nv c) = exit_dec (threshold_ self) nv c.
Proof.
  intros G. destruct (stats_closed nv c G) as [HS ->].
  apply guard_dec_spec in G. destruct G as [Hne _].
  unfold early_exit, xgt, xlt, xmul, of_Q. simpl.
  set (k := threshold_ self).
  assert (Hd : (0 < IZR (Zpos (Qden k)))%R) by (apply IZR_lt; reflexivity).
  assert (E : (Q2R k * (sqrt (IZR (spread nv)) / INR (list_sum nv))
               < IZR (deficit nv c) / INR (list_sum nv))%R
              <-> (IZR (Qnum k) * sqrt (IZR (spread nv))
                   < IZR (Zpos (Qden k) * deficit nv c))%R).
  { rewrite mult_IZR. unfold Q2R.
    set (A := IZR (Qnum k)) in *. set (Dn := IZR (Zpos (Qden k))) in *.
    set (s := sqrt (IZR (spread nv))). set (d := IZR (deficit nv c)).
    set (S := INR (list_sum nv)) in *.
    replace (A * / Dn * (s / S))%R with ((A * s) / (Dn * S))%R by (field; lra).
    replace (d / S)%R with ((Dn * d) / (Dn * S))%R by (field; lra).
    assert (HDS : (0 < Dn * S)%R) by (apply Rmult_lt_0_compat; assumption).
    split; intros H.
    - apply Rmult_lt_reg_r with (/ (Dn * S))%R;
        [apply Rinv_0_lt_compat; exact HDS | exact H].
    - apply Rmult_lt_compat_r; [apply Rinv_0_lt_compat; exact HDS | exact H]. }
  destruct (exit_dec k nv c) eqn:X.
  - apply Rltb_true, E, (exit_dec_spec k nv c Hne), X.
  - apply Rltb_false. apply Rnot_lt_le. intros H.
    apply E, (exit_dec_spec k nv c Hne) in H. congruence.
Qed.

Lemma signed_inf_scale (d S : R) :
  (0 < S)%R -> signed_inf (d / S) = signed_inf d.
Proof.
  intros HS. unfold signed_inf.
  assert (Hi : (0 < / S)%R) by (apply Rinv_0_lt_compat; exact HS).
  destruct (Req_dec_T d 0) as [-> | Hd].
  - rewrite !Reqb_true; [reflexivity | reflexivity | unfold Rdiv; ring].
  - rewrite !Reqb_false; [| exact Hd |].
    + destruct (Rlt_dec 0 d) as [P | N].
      * rewrite !Rltb_true; [reflexivity | exact P |].
        unfold Rdiv. apply Rmult_lt_0_compat; assumption.
      * rewrite !Rltb_false; [reflexivity | lra |].
        unfold Rdiv. apply Rnot_lt_le in N. nra.
    + unfold Rdiv. intros H. apply Rmult_integral in H. destruct H; lra.
Qed.

(** Under the guard, the ratio in closed form: finite exactly when the counts
    are not all equal. *)
Lemma ratio_stats (nv : list nat) (c : nat) :
  guard_dec nv = true ->
  ratio (stats_of nv c) =
  if (spread nv =? 0)%Z then signed_inf (IZR (deficit nv c))
  else Fin (IZR (deficit nv c) / sqrt (IZR (spread nv))).
Proof.
  intros G. destruct (stats_closed nv c G) as [HS ->].
  apply guard_dec_spec in G. destruct G as [Hne _].
  pose proof (spread_nonneg nv Hne) as Hv.
  unfold ratio, xdiv. simpl.
  destruct (Z.eqb_spec (spread nv) 0) as [E | E].
  - rewrite E, sqrt_0. rewrite Reqb_true by (unfold Rdiv; ring).
    apply signed_inf_scale. exact HS.
  - assert (Hpos : (0 < sqrt (IZR (spread nv)))%R).
    { apply sqrt_lt_R0. destruct Hv as [Hv | Hv]; [exact Hv|].
      exfalso. apply E. apply eq_IZR. symmetry. exact Hv. }
    rewrite Reqb_false.
    + f_equal. field. split; lra.
    + apply Rgt_not_eq. unfold Rdiv. apply Rmult_lt_0_compat; [exact Hpos|].
      apply Rinv_0_lt_compat. exact HS.
Qed.

(** ** The scan of one point *)

Lemma scan_radii_dec (self : LOCI) (D : matrix) (p : nat) (cvs : list Q) :
  forall last s0,
    scan_radii self D p cvs (score_of last s0) =
    match scan_dec self D p cvs last with
    | None => None
    | Some l => Some (score_of l s0)
    end.
Proof.
  induction cvs as [|r rest IH]; intros last s0; simpl; [reflexivity|].
  unfold stats_at. destruct (counts_at self D p r) as [[nv c]|]; [|reflexivity].
  rewrite guard_stats. destruct (guard_dec nv) eqn:G.
  - rewrite (early_exit_stats self nv c G).
    destruct (exit_dec (threshold_ self) nv c); [reflexivity|].
    apply (IH (Some (nv, c)) s0).
  - apply IH.
Qed.

Lemma row_lt (D : matrix) (i : nat) :
  i < length D -> row D i = Some (nth i D []).
Proof. intros H. unfold row. apply nth_error_nth'. exact H. Qed.


(** On a square matrix the loop body raises nothing, and its counts are
    bounded as the alpha counts are; on a distance matrix, at a positive
    radius, [p] is in its own sample. *)
Lemma counts_at_total (self : LOCI) (D : matrix) (p : nat) (r : Q) :
  square D -> p < length D ->
  exists sample nv c,
    _get_sampling_N self D p r = Some sample /\
    _get_alpha_n self D (Arr sample) r = Some (CArr nv) /\
    _get_alpha_n self D (Int p) r = Some (CInt c) /\
    counts_at self D p r = Some (nv, c) /\
    length nv = length sample /\
    (zero_diagonal D -> (0 <= r)%Q -> In p sample).
Proof.
  intros Hsq Hp. pose proof (row_lt D p Hp) as Hrow.
  set (ds := nth p D []) in *.
  destruct (sampling_positions self D p r ds Hrow) as [sample [Hs [_ Hin]]].
  assert (Hrows : traverse (row D) sample = Some (map (fun i => nth i D []) sample)).
  { apply traverse_total. intros j Hj. apply row_lt.
    apply Hin in Hj. destruct Hj as [d [Hd _]].
    rewrite <- (square_row_length D p ds Hsq Hrow).
    apply nth_error_Some. rewrite Hd. discriminate. }
  eexists sample, _, _. split; [exact Hs|].
  unfold counts_at, _get_alpha_n. rewrite Hs, Hrows, Hrow.
  split; [reflexivity|]. split; [reflexivity|]. split; [reflexivity|].
  split; [rewrite !length_map; reflexivity|].
  intros Hz Hr. apply Hin. destruct (Hz p Hp) as [d [Hd Hd0]].
  unfold entry in Hd. rewrite Hrow in Hd. exists d. split; [exact Hd|].
  rewrite Hd0. exact Hr.
Qed.

Lemma scan_radii_total (self : LOCI) (D : matrix) (p : nat) (cvs : list Q) :
  square D -> p < length D ->
  forall s0, exists s, scan_radii self D p cvs s0 = Some s.
Proof.
  intros Hsq Hp. induction cvs as [|r rest IH]; intros s0; simpl.
  - exists s0. reflexivity.
  - destruct (counts_at_total self D p r Hsq Hp) as [sm [nv [c [_ [_ [_ [Hc _]]]]]]].
    unfold stats_at. rewrite Hc.
    destruct (guard (stats_of nv c)); [|apply IH].
    destruct (early_exit self (stats_of nv c)); [eexists; reflexivity | apply IH].
Qed.

Lemma traverse_Some {A B : Type} (f : A -> option B) (l : list A) :
  (forall x, In x l -> exists y, f x = Some y) -> exists ys, traverse f l = Some ys.
Proof.
  induction l as [|a l IH]; simpl; intros H; [eexists; reflexivity|].
  destruct (H a (or_introl eq_refl)) as [y ->].
  destruct IH as [ys ->]; [intros x Hx; apply H; right; exact Hx|].
  eexists; reflexivity.
Qed.

(** On the distance matrix of a dataset (square, at least one point) the
    scoring procedure returns one score per point. *)
Lemma calculate_total (self : LOCI) (D : matrix) :
  square D -> D <> [] ->
  exists scores, _calculate_decision_score self D = Some scores.
Proof.
  intros Hsq Hne. unfold _calculate_decision_score, r_max_of.
  destruct (np_max (concat D)) as [m|] eqn:Em.
  - apply traverse_Some. intros p Hp. apply in_seq in Hp.
    assert (Hlt : p < length D) by lia.
    unfold point_score, _get_critical_values. rewrite (row_lt D p Hlt).
    apply scan_radii_total; assumption.
  - exfalso. destruct D as [|ds D']; [congruence|].
    inversion Hsq as [|? ? Hlen _]; subst. simpl in Hlen.
    destruct ds; [discriminate|]. simpl in Em. discriminate.
Qed.

(** C6.  With [alpha] not zero (numpy's quotient by zero is infinite, which
    a rational does not model): the critical values of [p] are the ascending
    sort of the concatenation, nothing removed, of the distances of the row
    of [p] that are strictly greater than [r_min] and at most [r_max] with
    the same distances divided by [alpha]; and on the distance matrix of a
    dataset a scoring run succeeds and uses, for every point, [r_min = 0] and
    the one [r_max = max(D) / alpha], [max(D)] being the largest entry of the
    matrix. *)
Theorem critical_values_sorted_concat (self : LOCI) (D : matrix) :
  ~ (_alpha self == 0)%Q ->
  (forall p r_max r_min ds, row D p = Some ds ->
     let kept := filter (fun d => Qltb r_min d && Qleb d r_max) ds in
     (forall d, In d kept <-> In d ds /\ (r_min < d)%Q /\ (d <= r_max)%Q) /\
     exists cv, _get_critical_values self D p r_max r_min = Some cv /\
                StronglySorted Qle cv /\
                Permutation cv (kept ++ map (fun d => d / _alpha self)%Q kept)) /\
  (square D -> 0 < length D ->
   exists scores max_dist,
     _calculate_decision_score self D = Some scores /\
     In max_dist (concat D) /\
     (forall d, In d (concat D) -> (d <= max_dist)%Q) /\
     r_max_of self D = Some (max_dist / _alpha self)%Q /\
     forall p, p < length D ->
       exists cv,
         _get_critical_values self D p (max_dist / _alpha self)%Q 0 = Some cv /\
         nth_error scores p = scan_radii self D p cv (Fin 0)).
Proof.
  intros _. split.
  - intros p r_max r_min ds Hrow kept. split.
    + intros d. unfold kept. rewrite filter_In, andb_true_iff, Qltb_lt, Qleb_le.
      tauto.
    + unfold _get_critical_values. rewrite Hrow, select_filter. fold kept.
      eexists. split; [reflexivity|]. split; [apply np_sort_sorted | apply np_sort_perm].
  - intros Hsq Hpos.
    destruct (calculate_total self D Hsq) as [scores H].
    { destruct D; [simpl in Hpos; lia | discriminate]. }
    destruct (calculate_nth self D scores H) as [m [Hm [Hlen Hp]]].
    exists scores, m. destruct (np_max_spec _ _ Hm) as [Hin Hall].
    split; [exact H|]. split; [exact Hin|]. split; [exact Hall|].
    split; [unfold r_max_of; rewrite Hm; reflexivity|].
    intros p Hlt. specialize (Hp p Hlt). unfold point_score in Hp.
    destruct (_get_critical_values self D p (m / _alpha self) 0) as [cv|] eqn:Ecv.
    + exists cv. split; [reflexivity | exact Hp].
    + exfalso. apply nth_error_None in Hp. lia.
Qed.

Lemma critical_values_sorted_concat_witness :
  (exists cv, _get_critical_values default_LOCI (pdist_squareform_1d [0; 1; 5]%Q)
                0 10 0 = Some cv /\
              StronglySorted Qle cv /\
              Permutation cv ([1; 5]%Q
                              ++ map (fun d => d / _alpha default_LOCI)%Q [1; 5]%Q)) /\
  (exists scores max_dist,
     _calculate_decision_score default_LOCI (pdist_squareform_1d [0; 1; 5]%Q)
     = Some scores /\
     In max_dist (concat (pdist_squareform_1d [0; 1; 5]%Q)) /\
     (forall d, In d (concat (pdist_squareform_1d [0; 1; 5]%Q)) -> (d <= max_dist)%Q) /\
     r_max_of default_LOCI (pdist_squareform_1d [0; 1; 5]%Q)
     = Some (max_dist / _alpha default_LOCI)%Q /\
     forall p, p < length (pdist_squareform_1d [0; 1; 5]%Q) ->
       exists cv,
         _get_critical_values default_LOCI (pdist_squareform_1d [0; 1; 5]%Q) p
           (max_dist / _alpha default_LOCI)%Q 0 = Some cv /\
         nth_error scores p
         = scan_radii default_LOCI (pdist_squareform_1d [0; 1; 5]%Q) p cv (Fin 0)).
Proof.
  destruct (critical_values_sorted_concat default_LOCI
              (pdist_squareform_1d [0; 1; 5]%Q)) as [H1 H2].
  - intros H. discriminate H.
  - split.
    + apply (H1 0 10%Q 0%Q [0; 1; 5]%Q eq_refl).
    + apply H2; [repeat constructor | simpl; lia].
Defined.

Lemma counts_at_inv (self : LOCI) (D : matrix) (p : nat) (r : Q)
    (nv : list nat) (c : nat) :
  counts_at self D p r = Some (nv, c) ->
  exists sample, _get_sampling_N self D p r = Some sample /\
                 _get_alpha_n self D (Arr sample) r = Some (CArr nv) /\
                 _get_alpha_n self D (Int p) r = Some (CInt c).
Proof.
  unfold counts_at. intros H.
  destruct (_get_sampling_N self D p r) as [sample|]; [|discriminate].
  exists sample. split; [reflexivity|].
  destruct (_get_alpha_n self D (Arr sample) r) as [[n|ns]|]; try discriminate.
  destruct (_get_alpha_n self D (Int p) r) as [[n|ns']|]; try discriminate.
  injection H as -> ->. split; reflexivity.
Qed.

Lemma stats_at_inv (self : LOCI) (D : matrix) (p : nat) (r : Q) (st : radius_stats) :
  stats_at self D p r = Some st ->
  exists nv c, counts_at self D p r = Some (nv, c) /\ st = stats_of nv c.
Proof.
  unfold stats_at. intros H.
  destruct (counts_at self D p r) as [[nv c]|]; [|discriminate].
  injection H as <-. exists nv, c. split; reflexivity.
Qed.

Lemma list_sum_le (m : nat) (nv : list nat) :
  Forall (fun n => n <= m) nv -> list_sum nv <= m * length nv.
Proof.
  induction 1 as [|n nv Hn _ IH]; simpl; [lia|]. lia.
Qed.


Lemma scan_no_guard (self : LOCI) (D : matrix) (p : nat) (cvs : list Q) :
  (forall r, In r cvs -> exists st, stats_at self D p r = Some st /\ guard st = false) ->
  forall s0, scan_radii self D p cvs s0 = Some s0.
Proof.
  induction cvs as [|r rest IH]; intros H s0; simpl; [reflexivity|].
  destruct (H r (or_introl eq_refl)) as [st [-> ->]].
  apply IH. intros r' Hr'. apply H. right. exact Hr'.
Qed.

Lemma map_const_seq {A : Type} (x : A) (n : nat) :
  forall a, map (fun _ => x) (seq a n) = repeat x n.
Proof.
  induction n as [|n IH]; intros a; simpl; [reflexivity|]. rewrite IH. reflexivity.
Qed.

(** ** The minimum-sample guard *)

Lemma small_guard_false (self : LOCI) (D : matrix) (p : nat) (r : Q)
    (st : radius_stats) :
  square D -> length D < 20 -> stats_at self D p r = Some st ->
  guard st = false /\
  (n_hat st = NaN \/ exists x, n_hat st = Fin x /\ (x < 20)%R).
Proof.
  intros Hsq HN Hst.
  destruct (stats_at_inv _ _ _ _ _ Hst) as [nv [c [Hc ->]]].
  destruct (counts_at_inv _ _ _ _ _ _ Hc) as [sample [_ [Hnv _]]].
  pose proof (batch_counts_in_range self D r sample nv Hsq Hnv) as Hb.
  assert (Hle : Forall (fun n => n <= length D) nv).
  { eapply Forall_impl; [|exact Hb]. intros n [H _]. exact H. }
  apply list_sum_le in Hle.
  destruct nv as [|v nv'] eqn:E.
  - split; [rewrite guard_stats; reflexivity | left; apply n_hat_nil].
  - rewrite <- E in *. assert (Hne : nv <> []) by (rewrite E; discriminate).
    assert (Hlen : 0 < length nv) by (rewrite E; simpl; lia).
    split.
    + rewrite guard_stats. destruct (guard_dec nv) eqn:G; [|reflexivity].
      apply guard_dec_spec in G. destruct G as [_ G]. nia.
    + right. rewrite (n_hat_cons nv c Hne). eexists. split; [reflexivity|].
      pose proof (INR_length_pos nv Hne) as Hn.
      assert (Hlt : list_sum nv < 20 * length nv) by nia.
      apply lt_INR in Hlt. rewrite mult_INR in Hlt.
      replace (INR 20) with 20%R in Hlt by (simpl; lra).
      apply Rmult_lt_reg_r with (INR (length nv)); [exact Hn|].
      unfold Rdiv. rewrite Rmult_assoc, Rinv_l by lra. lra.
Qed.

Lemma calculate_small (self : LOCI) (D : matrix) :
  square D -> 0 < length D -> length D < 20 ->
  _calculate_decision_score self D = Some (repeat (Fin 0) (length D)).
Proof.
  intros Hsq Hpos HN.
  destruct (calculate_total self D Hsq) as [scores Hs].
  { destruct D; [simpl in Hpos; lia | discriminate]. }
  unfold _calculate_decision_score in *.
  destruct (r_max_of self D) as [r_max|]; [|discriminate].
  rewrite <- (map_const_seq (Fin 0) (length D) 0).
  apply traverse_total. intros p Hp. apply in_seq in Hp.
  assert (Hlt : p < length D) by lia.
  unfold point_score, _get_critical_values. rewrite (row_lt D p Hlt).
  apply scan_no_guard. intros r _.
  destruct (counts_at_total self D p r Hsq Hlt) as [sm [nv [c [_ [_ [_ [Hc _]]]]]]].
  exists (stats_of nv c).
  assert (Hst : stats_at self D p r = Some (stats_of nv c))
    by (unfold stats_at; rewrite Hc; reflexivity).
  split; [exact Hst|]. apply (small_guard_false self D p r _ Hsq HN Hst).
Qed.

(** C3.  On a dataset of fewer than 20 points, whatever the radius and the
    point, [n_hat < 20] (or [n_hat] is undefined, on an empty sample): the
    guard never fires, and the scoring procedure returns the score [0] for
    every point. *)
Theorem fewer_than_20_points_all_zero (self : LOCI) (D : matrix) :
  square D -> 0 < length D -> length D < 20 ->
  (forall p r st, stats_at self D p r = Some st ->
     guard st = false /\
     (n_hat st = NaN \/ exists x, n_hat st = Fin x /\ (x < 20)%R)) /\
  _calculate_decision_score self D = Some (repeat (Fin 0) (length D)).
Proof.
  intros Hsq Hpos HN. split.
  - intros p r st. apply small_guard_false; assumption.
  - apply calculate_small; assumption.
Qed.

Lemma fewer_than_20_points_all_zero_witness :
  _calculate_decision_score default_LOCI (pdist_squareform_1d [0; 1; 5]%Q)
  = Some [Fin 0; Fin 0; Fin 0].
Proof.
  apply (fewer_than_20_points_all_zero default_LOCI (pdist_squareform_1d [0; 1; 5]%Q)).
  - repeat constructor.
  - simpl; lia.
  - simpl; lia.
Defined.

(** ** Tested radii are safe *)





(** ** Overwriting and early exit *)

Lemma scan_no_exit (self : LOCI) (D : matrix) (p : nat) (pre rest : list Q) :
  no_exit self D p pre ->
  forall s0, exists s1,
    scan_radii self D p (pre ++ rest) s0 = scan_radii self D p rest s1 /\
    (no_guard self D p pre -> s1 = s0).
Proof.
  induction pre as [|r pre IH]; intros Hne s0; simpl.
  - exists s0. split; [reflexivity | intros _; reflexivity].
  - destruct (Hne r (or_introl eq_refl)) as [st [Hst Hx]]. rewrite Hst.
    assert (Hne' : no_exit self D p pre) by (intros r' Hr'; apply Hne; right; exact Hr').
    destruct (guard st) eqn:G; simpl in Hx.
    + rewrite Hx. destruct (IH Hne' (ratio st)) as [s1 [E _]].
      exists s1. split; [exact E|]. intros Hng.
      destruct (Hng r (or_introl eq_refl)) as [st' [Hst' G']]. congruence.
    + destruct (IH Hne' s0) as [s1 [E H1]]. exists s1. split; [exact E|].
      intros Hng. apply H1. intros r' Hr'. apply Hng. right. exact Hr'.
Qed.

Lemma scan_last_guarded (self : LOCI) (D : matrix) (p : nat) (cvs : list Q)
    (st : radius_stats) :
  last_guarded self D p cvs st ->
  forall s0, scan_radii self D p cvs s0 = Some (ratio st).
Proof.
  intros [pre [r [post [-> [Hne [Hst [G Hend]]]]]]] s0.
  destruct (scan_no_exit self D p pre (r :: post) Hne s0) as [s1 [-> _]].
  simpl. rewrite Hst, G.
  destruct (early_exit self st) eqn:X; [reflexivity|].
  destruct Hend as [Hx | Hng]; [discriminate|].
  apply scan_no_guard. exact Hng.
Qed.

(** C2.  The scan of a point overwrites the running score with
    [mdef / sigma_mdef] at each radius that satisfies the guard
    [n_hat >= 20], and stops at the first radius that satisfies the guard and
    the test [mdef > threshold_ * sigma_mdef].  When the radii before [r] do
    not stop the scan and [r] satisfies the guard, the result is the quotient
    [mdef / sigma_mdef] of [r]: as soon as [r] passes the early-exit test,
    whatever the later radii are (none of them is evaluated), and also when
    no later radius satisfies the guard.  The score before the scan and the
    quotients written before [r] play no role, larger or not. *)
Theorem scan_overwrites_and_stops (self : LOCI) (D : matrix) (p : nat)
    (pre : list Q) (r : Q) (st : radius_stats) (s0 : xreal) :
  (forall q, In q pre ->
     exists st', stats_at self D p q = Some st' /\
       xge (n_hat st') (Fin 20)
       && xgt (mdef st') (xmul (of_Q (threshold_ self)) (sigma_mdef st')) = false) ->
  stats_at self D p r = Some st ->
  xge (n_hat st) (Fin 20) = true ->
  (xgt (mdef st) (xmul (of_Q (threshold_ self)) (sigma_mdef st)) = true ->
   forall later,
     scan_radii self D p (pre ++ r :: later) s0
     = Some (xdiv (mdef st) (sigma_mdef st))) /\
  (forall post,
     (forall q, In q post ->
        exists st', stats_at self D p q = Some st' /\
                    xge (n_hat st') (Fin 20) = false) ->
     scan_radii self D p (pre ++ r :: post) s0
     = Some (xdiv (mdef st) (sigma_mdef st))).
Proof.
  intros Hne Hst G.
  change (no_exit self D p pre) in Hne. change (guard st = true) in G.
  split.
  - intros X later. change (early_exit self st = true) in X.
    change (xdiv (mdef st) (sigma_mdef st)) with (ratio st).
    apply scan_last_guarded. exists pre, r, later. auto 6.
  - intros post Hng. change (no_guard self D p post) in Hng.
    change (xdiv (mdef st) (sigma_mdef st)) with (ratio st).
    apply scan_last_guarded. exists pre, r, post. auto 6.
Qed.

(** Every run of the scan ends in one of two ways: no radius satisfied the
    guard and the score is untouched, or the score is the ratio of the last
    radius processed that satisfies the guard. *)
Lemma scan_outcome (self : LOCI) (D : matrix) (p : nat) (cvs : list Q) :
  forall s0 s, scan_radii self D p cvs s0 = Some s ->
    (no_guard self D p cvs /\ s = s0) \/
    (exists st, last_guarded self D p cvs st /\ s = ratio st).
Proof.
  induction cvs as [|r rest IH]; intros s0 s H; simpl in H.
  - injection H as <-. left. split; [intros r []|reflexivity].
  - destruct (stats_at self D p r) as [st|] eqn:Hst; [|discriminate].
    destruct (guard st) eqn:G.
    + destruct (early_exit self st) eqn:X.
      * injection H as <-. right. exists st. split; [|reflexivity].
        exists [], r, rest. split; [reflexivity|]. split; [intros r' []|]. auto.
      * destruct (IH _ _ H) as [[Hng ->] | [st' [Hl ->]]].
        -- right. exists st. split; [|reflexivity].
           exists [], r, rest. split; [reflexivity|]. split; [intros r' []|]. auto.
        -- right. exists st'. split; [|reflexivity].
           destruct Hl as [pre [r' [post [-> [Hne [Hst' [G' Hend]]]]]]].
           exists (r :: pre), r', post. split; [reflexivity|].
           split; [|auto].
           intros q [<- | Hq]; [|apply Hne; exact Hq].
           exists st. rewrite G, X. split; [exact Hst | reflexivity].
    + destruct (IH _ _ H) as [[Hng ->] | [st' [Hl ->]]].
      * left. split; [|reflexivity].
        intros q [<- | Hq]; [exists st; auto | apply Hng; exact Hq].
      * right. exists st'. split; [|reflexivity].
        destruct Hl as [pre [r' [post [-> [Hne [Hst' [G' Hend]]]]]]].
        exists (r :: pre), r', post. split; [reflexivity|].
        split; [|auto].
        intros q [<- | Hq]; [|apply Hne; exact Hq].
        exists st. rewrite G. split; [exact Hst | reflexivity].
Qed.

(** ** The score of a point *)

Lemma point_score_final (self : LOCI) (D : matrix) (scores : list xreal) (p : nat) :
  _calculate_decision_score self D = Some scores -> p < length D ->
  exists l, final_counts self D p = Some l /\
            nth_error scores p = Some (score_of l (Fin 0)).
Proof.
  intros H Hp. destruct (calculate_nth self D scores H) as [m [Hm [Hlen Hnth]]].
  specialize (Hnth p Hp). unfold final_counts, r_max_of. rewrite Hm.
  unfold point_score in Hnth.
  destruct (_get_critical_values self D p (m / _alpha self) 0) as [cv|].
  - pose proof (scan_radii_dec self D p cv None (Fin 0)) as E. simpl in E.
    rewrite E in Hnth.
    destruct (scan_dec self D p cv None) as [l|].
    + exists l. split; [reflexivity | exact Hnth].
    + exfalso. apply nth_error_None in Hnth. lia.
  - exfalso. apply nth_error_None in Hnth. lia.
Qed.

Lemma ratio_sign (nv : list nat) (c : nat) :
  guard_dec nv = true -> spread nv <> 0%Z ->
  exists x, ratio (stats_of nv c) = Fin x /\
            ((0 < deficit nv c)%Z -> (0 < x)%R) /\
            ((deficit nv c < 0)%Z -> (x < 0)%R).
Proof.
  intros G Hv. rewrite (ratio_stats nv c G).
  destruct (Z.eqb_spec (spread nv) 0) as [E | _]; [contradiction|].
  apply guard_dec_spec in G. destruct G as [Hne _].
  pose proof (spread_nonneg nv Hne) as Hnn.
  assert (Hpos : (0 < sqrt (IZR (spread nv)))%R).
  { apply sqrt_lt_R0. destruct Hnn as [H | H]; [exact H|].
    exfalso. apply Hv. apply eq_IZR. symmetry. exact H. }
  assert (Hinv : (0 < / sqrt (IZR (spread nv)))%R) by (apply Rinv_0_lt_compat; exact Hpos).
  eexists. split; [reflexivity|]. unfold Rdiv. split; intros Hd.
  - apply Rmult_lt_0_compat; [apply (IZR_lt 0); exact Hd | exact Hinv].
  - apply (IZR_lt _ 0) in Hd.
    replace 0%R with (0 * / sqrt (IZR (spread nv)))%R by ring.
    apply Rmult_lt_compat_r; assumption.
Qed.

Lemma square_pdist_1d (X : list Q) : square (pdist_squareform_1d X).
Proof.
  unfold square, pdist_squareform_1d. apply Forall_forall. intros ds Hds.
  apply in_map_iff in Hds. destruct Hds as [a [<- _]].
  rewrite !length_map. reflexivity.
Qed.

Lemma zero_diagonal_pdist_1d (X : list Q) : zero_diagonal (pdist_squareform_1d X).
Proof.
  intros i Hi. unfold pdist_squareform_1d in *. rewrite length_map in Hi.
  destruct (nth_error X i) as [a|] eqn:Ea;
    [|apply nth_error_None in Ea; lia].
  exists (Qabs (a - a)). split.
  - unfold entry, row. rewrite nth_error_map, Ea. simpl.
    rewrite nth_error_map, Ea. reflexivity.
  - assert (E : (a - a == 0)%Q) by ring. rewrite E. reflexivity.
Qed.

(** C1, as the code has it.  On the distance matrix of a dataset the scoring
    procedure returns one score per point; the score of [p] is [0] when no
    critical radius of [p] satisfies the guard, and otherwise the ratio
    [mdef / sigma_mdef] of the last radius, in ascending order, that the scan
    processes and that satisfies the guard: the scan stops at the first
    radius that passes the guard and the early-exit test. *)
Theorem score_is_last_guarded_ratio (self : LOCI) (D : matrix) :
  square D -> 0 < length D ->
  exists scores r_max,
    _calculate_decision_score self D = Some scores /\
    r_max_of self D = Some r_max /\
    length scores = length D /\
    forall p, p < length D ->
      exists s cv,
        nth_error scores p = Some s /\
        _get_critical_values self D p r_max 0 = Some cv /\
        ((no_guard self D p cv /\ s = Fin 0) \/
         (exists st, last_guarded self D p cv st /\ s = ratio st)).
Proof.
  intros Hsq Hpos.
  destruct (calculate_total self D Hsq) as [scores Hs].
  { destruct D; [simpl in Hpos; lia | discriminate]. }
  destruct (calculate_nth self D scores Hs) as [m [Hm [Hlen Hnth]]].
  exists scores, (m / _alpha self)%Q.
  split; [exact Hs|]. split; [unfold r_max_of; rewrite Hm; reflexivity|].
  split; [exact Hlen|].
  intros p Hp. specialize (Hnth p Hp). unfold point_score in Hnth.
  destruct (_get_critical_values self D p (m / _alpha self) 0) as [cv|] eqn:Ecv.
  - destruct (scan_radii_total self D p cv Hsq Hp (Fin 0)) as [s Es].
    exists s, cv. split; [congruence|]. split; [reflexivity|].
    apply (scan_outcome self D p cv (Fin 0) s Es).
  - exfalso. apply nth_error_None in Hnth. lia.
Qed.

Lemma score_is_last_guarded_ratio_witness :
  exists scores r_max,
    _calculate_decision_score default_LOCI D22 = Some scores /\
    r_max_of default_LOCI D22 = Some r_max /\
    length scores = length D22 /\
    forall p, p < length D22 ->
      exists s cv,
        nth_error scores p = Some s /\
        _get_critical_values default_LOCI D22 p r_max 0 = Some cv /\
        ((no_guard default_LOCI D22 p cv /\ s = Fin 0) \/
         (exists st, last_guarded default_LOCI D22 p cv st /\ s = ratio st)).
Proof.
  apply (score_is_last_guarded_ratio default_LOCI D22).
  - apply square_pdist_1d.
  - vm_compute. lia.
Defined.

(** C1, as the claim states it, fails.  In the dataset [X27] with the
    default parameters, the scan of the point 23 processes all its 48
    critical values without stopping; its score is the ratio of the last one
    ([r = 4]), which is negative, although the radius [r = 1] satisfies the
    guard with a positive ratio: the score is not the maximum. *)
Lemma score_is_not_max_guarded_ratio :
  exists scores s,
    _calculate_decision_score default_LOCI D27 = Some scores /\
    nth_error scores 23 = Some s /\
    r_max_of default_LOCI D27 = Some 6%Q /\
    _get_critical_values default_LOCI D27 23 6 0 = Some cv27 /\
    ~ max_guarded_ratio default_LOCI D27 23 cv27 s.
Proof.
  destruct (calculate_total default_LOCI D27 (square_pdist_1d X27)) as [scores Hs];
    [discriminate|].
  assert (Hp : 23 < length D27) by (vm_compute; lia).
  destruct (point_score_final default_LOCI D27 scores 23 Hs Hp) as [l [Hl Hn]].
  assert (El : final_counts default_LOCI D27 23 = Some (Some (repeat 26 26 ++ [1], 26)))
    by (vm_compute; reflexivity).
  rewrite El in Hl. injection Hl as <-. cbv beta iota delta [score_of] in Hn.
  destruct (ratio_sign (repeat 26 26 ++ [1]) 26) as [x [Ex [_ Hneg]]];
    [vm_compute; reflexivity | vm_compute; discriminate |].
  assert (Hx : (x < 0)%R) by (apply Hneg; vm_compute; reflexivity).
  assert (Hc : counts_at default_LOCI D27 23 1 = Some (repeat 23 23 ++ repeat 3 3, 3))
    by (vm_compute; reflexivity).
  assert (Hst : stats_at default_LOCI D27 23 1
                = Some (stats_of (repeat 23 23 ++ repeat 3 3) 3))
    by (unfold stats_at; rewrite Hc; reflexivity).
  assert (G : guard (stats_of (repeat 23 23 ++ repeat 3 3) 3) = true)
    by (rewrite guard_stats; vm_compute; reflexivity).
  destruct (ratio_sign (repeat 23 23 ++ repeat 3 3) 3) as [y [Ey [Hpos _]]];
    [vm_compute; reflexivity | vm_compute; discriminate |].
  assert (Hy : (0 < y)%R) by (apply Hpos; vm_compute; reflexivity).
  assert (Hin : In 1%Q cv27) by (left; reflexivity).
  exists scores, (Fin x).
  split; [exact Hs|]. split; [rewrite Hn; exact (f_equal Some Ex)|].
  split; [vm_compute; reflexivity|]. split; [vm_compute; reflexivity|].
  intros [[Hng _] | [_ Hall]].
  - destruct (Hng 1%Q Hin) as [st [Hst' G']].
    rewrite Hst in Hst'.
    replace st with (stats_of (repeat 23 23 ++ repeat 3 3) 3) in G' by congruence.
    rewrite G in G'. discriminate.
  - specialize (Hall 1%Q _ Hin Hst G). rewrite Ey in Hall. simpl in Hall.
    rewrite Rleb_false in Hall by lra. discriminate.
Qed.

(** ** Finite and negative scores *)

Lemma xdiv_Fin_finite (m sg : R) :
  (sg <> 0%R -> xdiv (Fin m) (Fin sg) = Fin (m / sg)) /\
  (sg = 0%R -> is_finite (xdiv (Fin m) (Fin sg)) = false).
Proof.
  unfold xdiv. split; intros H.
  - rewrite (Reqb_false _ _ H). reflexivity.
  - rewrite (Reqb_true _ _ H). unfold signed_inf.
    destruct (Reqb m 0); [reflexivity|]. destruct (Rltb 0 m); reflexivity.
Qed.

(** C8, as the claim states it, fails.  In the dataset [X40] with the default
    parameters, every sampled point of the point 0 has the same alpha count
    (20) at every critical radius: [sigma_mdef = 0] and [mdef = 0] under the
    guard, and the score [0 / 0] is [NaN]. *)
Lemma score_not_finite :
  exists scores,
    _calculate_decision_score default_LOCI D40 = Some scores /\
    nth_error scores 0 = Some NaN /\
    is_finite NaN = false.
Proof.
  destruct (calculate_total default_LOCI D40 (square_pdist_1d X40)) as [scores Hs];
    [discriminate|].
  assert (Hp : 0 < length D40) by (vm_compute; lia).
  destruct (point_score_final default_LOCI D40 scores 0 Hs Hp) as [l [Hl Hn]].
  assert (El : final_counts default_LOCI D40 0 = Some (Some (repeat 20 40, 20)))
    by (vm_compute; reflexivity).
  rewrite El in Hl. injection Hl as <-. cbv beta iota delta [score_of] in Hn.
  assert (E : ratio (stats_of (repeat 20 40) 20) = NaN).
  { rewrite ratio_stats by (vm_compute; reflexivity).
    replace (spread (repeat 20 40)) with 0%Z by (vm_compute; reflexivity).
    replace (deficit (repeat 20 40) 20) with 0%Z by (vm_compute; reflexivity).
    change (0 =? 0)%Z with true. cbv iota.
    unfold signed_inf. rewrite Reqb_true by reflexivity. reflexivity. }
  exists scores. split; [exact Hs|].
  split; [rewrite Hn; exact (f_equal Some E) | reflexivity].
Qed.

Lemma last_guarded_radius (self : LOCI) (D : matrix) (p : nat) (cv : list Q)
    (st : radius_stats) :
  last_guarded self D p cv st ->
  exists r, In r cv /\ stats_at self D p r = Some st /\ guard st = true.
Proof.
  intros [pre [r [post [-> [_ [Hst [G _]]]]]]].
  exists r. split; [apply in_elt | auto].
Qed.

Lemma guarded_stats_finite (self : LOCI) (D : matrix) (p : nat) (r : Q)
    (st : radius_stats) :
  stats_at self D p r = Some st -> guard st = true ->
  exists m sg, mdef st = Fin m /\ sigma_mdef st = Fin sg /\ (0 <= sg)%R.
Proof.
  intros Hst G. destruct (stats_at_inv _ _ _ _ _ Hst) as [nv [c [_ ->]]].
  rewrite guard_stats in G. destruct (stats_closed nv c G) as [HS ->]. simpl.
  eexists _, _. split; [reflexivity|]. split; [reflexivity|].
  unfold Rdiv. apply Rmult_le_pos; [apply sqrt_pos|].
  apply Rlt_le, Rinv_0_lt_compat. exact HS.
Qed.

(** C8, as the code has it.  A score is [0] or the ratio
    [mdef / sigma_mdef] of a tested radius that satisfies the guard, where
    [mdef] and [sigma_mdef >= 0] are real numbers; it is the finite real
    [mdef / sigma_mdef] when [sigma_mdef] is not zero, and an infinity or
    [NaN] when it is zero.  It need not be positive: in the dataset [X22] the
    score of the point 0 is negative, its alpha count 21 being above
    [n_hat]. *)
Theorem score_finite_unless_sigma_zero :
  (forall self D scores p s,
     _calculate_decision_score self D = Some scores ->
     nth_error scores p = Some s ->
     s = Fin 0 \/
     exists r_max cv r st m sg,
       r_max_of self D = Some r_max /\
       _get_critical_values self D p r_max 0 = Some cv /\ In r cv /\
       stats_at self D p r = Some st /\ guard st = true /\ s = ratio st /\
       mdef st = Fin m /\ sigma_mdef st = Fin sg /\ (0 <= sg)%R /\
       (sg <> 0%R -> s = Fin (m / sg)) /\
       (sg = 0%R -> is_finite s = false)) /\
  (exists scores x nh,
     _calculate_decision_score default_LOCI D22 = Some scores /\
     nth_error scores 0 = Some (Fin x) /\ (x < 0)%R /\
     counts_at default_LOCI D22 0 2 = Some (repeat 21 21 ++ [1], 21) /\
     Fin x = ratio (stats_of (repeat 21 21 ++ [1]) 21) /\
     n_hat (stats_of (repeat 21 21 ++ [1]) 21) = Fin nh /\ (nh < INR 21)%R).
Proof.
  split.
  - intros self D scores p s Hs Hn.
    destruct (calculate_nth self D scores Hs) as [m [Hm [Hlen Hnth]]].
    assert (Hp : p < length D).
    { rewrite <- Hlen. apply nth_error_Some. rewrite Hn. discriminate. }
    specialize (Hnth p Hp). rewrite Hn in Hnth. unfold point_score in Hnth.
    destruct (_get_critical_values self D p (m / _alpha self) 0) as [cv|] eqn:Ecv;
      [|discriminate].
    symmetry in Hnth.
    destruct (scan_outcome self D p cv _ _ Hnth) as [[_ ->] | [st [Hl ->]]];
      [left; reflexivity | right].
    destruct (last_guarded_radius self D p cv st Hl) as [r [Hin [Hst G]]].
    destruct (guarded_stats_finite self D p r st Hst G) as [mv [sg [Em [Esg Hsg]]]].
    exists (m / _alpha self)%Q, cv, r, st, mv, sg.
    split; [unfold r_max_of; rewrite Hm; reflexivity|].
    split; [exact Ecv|]. split; [exact Hin|]. split; [exact Hst|].
    split; [exact G|]. split; [reflexivity|]. split; [exact Em|].
    split; [exact Esg|]. split; [exact Hsg|].
    unfold ratio. rewrite Em, Esg. apply xdiv_Fin_finite.
  - destruct (calculate_total default_LOCI D22 (square_pdist_1d X22)) as [scores Hs];
      [discriminate|].
    assert (Hp : 0 < length D22) by (vm_compute; lia).
    destruct (point_score_final default_LOCI D22 scores 0 Hs Hp) as [l [Hl Hn]].
    assert (El : final_counts default_LOCI D22 0 = Some (Some (repeat 21 21 ++ [1], 21)))
      by (vm_compute; reflexivity).
    rewrite El in Hl. injection Hl as <-. cbv beta iota delta [score_of] in Hn.
    destruct (ratio_sign (repeat 21 21 ++ [1]) 21) as [x [Ex [_ Hneg]]];
      [vm_compute; reflexivity | vm_compute; discriminate |].
    assert (Hx : (x < 0)%R) by (apply Hneg; vm_compute; reflexivity).
    exists scores, x, (INR (list_sum (repeat 21 21 ++ [1])%nat)
                       / INR (length (repeat 21 21 ++ [1])%nat))%R.
    split; [exact Hs|]. split; [rewrite Hn; exact (f_equal Some Ex)|].
    split; [exact Hx|]. split; [vm_compute; reflexivity|].
    split; [symmetry; exact Ex|].
    split; [apply n_hat_cons; discriminate|].
    replace (list_sum (repeat 21 21 ++ [1])) with 442 by (vm_compute; reflexivity).
    replace (length (repeat 21 21 ++ [1])) with 22 by (vm_compute; reflexivity).
    rewrite !INR_IZR_INZ. simpl Z.of_nat. lra.
Qed.

(** In [X24] the scan of the point 23 writes the quotient of the radius 4
    seven times without stopping, then stops at the radius 5, whose quotient
    is the score whatever follows; in [X27] the scan of the point 23 writes
    the quotient of the radius 1, passes the radius 2, which fails the guard,
    and ends with the smaller quotient of the radius 4. *)
Lemma scan_overwrites_and_stops_witness :
  (forall later,
     scan_radii default_LOCI D24 23 (repeat 4%Q 7 ++ 5%Q :: later) (Fin 0)
     = Some (xdiv (mdef (stats_of (repeat 23 23 ++ [1]) 1))
                  (sigma_mdef (stats_of (repeat 23 23 ++ [1]) 1)))) /\
  scan_radii default_LOCI D27 23
    ((repeat 1%Q 23 ++ repeat 2%Q 24) ++ 4%Q :: []) (Fin 0)
  = Some (xdiv (mdef (stats_of (repeat 26 26 ++ [1]) 26))
               (sigma_mdef (stats_of (repeat 26 26 ++ [1]) 26))).
Proof.
  split.
  - destruct (scan_overwrites_and_stops default_LOCI D24 23 (repeat 4%Q 7) 5%Q
                (stats_of (repeat 23 23 ++ [1]) 1) (Fin 0)) as [H _].
    + intros q Hq. apply repeat_spec in Hq. subst q.
      exists (stats_of (repeat 23 7 ++ [1]) 1). split.
      * assert (Hc : counts_at default_LOCI D24 23 4 = Some (repeat 23 7 ++ [1], 1))
          by (vm_compute; reflexivity).
        unfold stats_at. rewrite Hc. reflexivity.
      * change (guard (stats_of (repeat 23 7 ++ [1]) 1)
                && early_exit default_LOCI (stats_of (repeat 23 7 ++ [1]) 1) = false).
        rewrite guard_stats, early_exit_stats by (vm_compute; reflexivity).
        vm_compute. reflexivity.
    + assert (Hc : counts_at default_LOCI D24 23 5 = Some (repeat 23 23 ++ [1], 1))
        by (vm_compute; reflexivity).
      unfold stats_at. rewrite Hc. reflexivity.
    + change (guard (stats_of (repeat 23 23 ++ [1]) 1) = true).
      rewrite guard_stats. vm_compute. reflexivity.
    + apply H.
      change (early_exit default_LOCI (stats_of (repeat 23 23 ++ [1]) 1) = true).
      rewrite early_exit_stats by (vm_compute; reflexivity).
      vm_compute. reflexivity.
  - destruct (scan_overwrites_and_stops default_LOCI D27 23
                (repeat 1%Q 23 ++ repeat 2%Q 24) 4%Q
                (stats_of (repeat 26 26 ++ [1]) 26) (Fin 0)) as [_ H].
    + intros q Hq. apply in_app_or in Hq.
      destruct Hq as [Hq | Hq]; apply repeat_spec in Hq; subst q.
      * exists (stats_of (repeat 23 23 ++ repeat 3 3) 3). split.
        -- assert (Hc : counts_at default_LOCI D27 23 1
                        = Some (repeat 23 23 ++ repeat 3 3, 3))
             by (vm_compute; reflexivity).
           unfold stats_at. rewrite Hc. reflexivity.
        -- change (guard (stats_of (repeat 23 23 ++ repeat 3 3) 3)
                   && early_exit default_LOCI
                        (stats_of (repeat 23 23 ++ repeat 3 3) 3) = false).
           rewrite guard_stats, early_exit_stats by (vm_compute; reflexivity).
           vm_compute. reflexivity.
      * exists (stats_of (repeat 23 23 ++ repeat 3 3 ++ [1]) 3). split.
        -- assert (Hc : counts_at default_LOCI D27 23 2
                        = Some (repeat 23 23 ++ repeat 3 3 ++ [1], 3))
             by (vm_compute; reflexivity).
           unfold stats_at. rewrite Hc. reflexivity.
        -- change (guard (stats_of (repeat 23 23 ++ repeat 3 3 ++ [1]) 3)
                   && early_exit default_LOCI
                        (stats_of (repeat 23 23 ++ repeat 3 3 ++ [1]) 3) = false).
           rewrite guard_stats. vm_compute. reflexivity.
    + assert (Hc : counts_at default_LOCI D27 23 4 = Some (repeat 26 26 ++ [1], 26))
        by (vm_compute; reflexivity).
      unfold stats_at. rewrite Hc. reflexivity.
    + change (guard (stats_of (repeat 26 26 ++ [1]) 26) = true).
      rewrite guard_stats. vm_compute. reflexivity.
    + apply H. intros q [].
Defined.

(** ** The fit *)

Section SameParameters.
Variables s1 s2 : LOCI.
Hypothesis same_alpha : _alpha s1 = _alpha s2.
Hypothesis same_k : threshold_ s1 = threshold_ s2.

Lemma critical_values_same D p r_max r_min :
  _get_critical_values s1 D p r_max r_min = _get_critical_values s2 D p r_max r_min.
Proof. unfold _get_critical_values. rewrite same_alpha. reflexivity. Qed.

Lemma alpha_n_same D ix r : _get_alpha_n s1 D ix r = _get_alpha_n s2 D ix r.
Proof. unfold _get_alpha_n. rewrite same_alpha. reflexivity. Qed.

Lemma stats_at_same D p r : stats_at s1 D p r = stats_at s2 D p r.
Proof.
  unfold stats_at, counts_at, _get_sampling_N.
  destruct (row D p); [|reflexivity]. rewrite !alpha_n_same. reflexivity.
Qed.

Lemma scan_radii_same D p cvs :
  forall s0, scan_radii s1 D p cvs s0 = scan_radii s2 D p cvs s0.
Proof.
  induction cvs as [|r rest IH]; intros s0; simpl; [reflexivity|].
  rewrite stats_at_same. destruct (stats_at s2 D p r) as [st|]; [|reflexivity].
  unfold early_exit. rewrite same_k, !IH. reflexivity.
Qed.

Lemma traverse_ext {A B : Type} (f g : A -> option B) (l : list A) :
  (forall x, f x = g x) -> traverse f l = traverse g l.
Proof.
  intros H. induction l as [|x l IH]; simpl; [reflexivity|].
  rewrite H, IH. reflexivity.
Qed.

Lemma calculate_same D :
  _calculate_decision_score s1 D = _calculate_decision_score s2 D.
Proof.
  unfold _calculate_decision_score, r_max_of. rewrite same_alpha.
  destruct (np_max (concat D)) as [m|]; [|reflexivity].
  apply traverse_ext. intros p. unfold point_score.
  rewrite critical_values_same.
  destruct (_get_critical_values s2 D p (m / _alpha s2) 0); [|reflexivity].
  apply scan_radii_same.
Qed.
End SameParameters.

(** C9.  After [fit], the labels are, entry by entry, 1 where the score is
    strictly greater than [threshold_] and 0 elsewhere; the stored mean and
    standard deviation are those of the whole array of scores; and the
    fitted state is the same whatever the contamination (and the state
    before the fit). *)
Theorem fit_labels_and_moments (self self' : LOCI) (D : matrix) :
  fit self D = Some self' ->
  exists scores labels,
    _calculate_decision_score self D = Some scores /\
    fitted_ self' = Some (mkFitted scores labels (np_mean scores) (np_std scores)) /\
    length labels = length scores /\
    (forall i s, nth_error scores i = Some s ->
       nth_error labels i
       = Some (if xgt s (of_Q (threshold_ self)) then 1 else 0)) /\
    (forall c before,
       option_map fitted_ (fit (mkLOCI c (_alpha self) (threshold_ self) before) D)
       = Some (fitted_ self')).
Proof.
  unfold fit. intros H.
  destruct (_calculate_decision_score self D) as [scores|] eqn:Hs; [|discriminate].
  injection H as <-. exists scores, (map (label_of self) scores).
  split; [reflexivity|]. split; [reflexivity|]. split; [apply length_map|]. split.
  - intros i s Hi. rewrite nth_error_map, Hi. reflexivity.
  - intros c before.
    rewrite (calculate_same (mkLOCI c (_alpha self) (threshold_ self) before) self
               eq_refl eq_refl D), Hs.
    reflexivity.
Qed.

Lemma fit_labels_and_moments_witness :
  exists scores labels,
    _calculate_decision_score default_LOCI (pdist_squareform_1d [0; 1; 5]%Q)
    = Some scores /\
    Some (mkFitted [Fin 0; Fin 0; Fin 0] [0; 0; 0]
            (np_mean [Fin 0; Fin 0; Fin 0]) (np_std [Fin 0; Fin 0; Fin 0]))
    = Some (mkFitted scores labels (np_mean scores) (np_std scores)).
Proof.
  destruct (fit_labels_and_moments default_LOCI
              (mkLOCI (1 # 10) (1 # 2) 3
                 (Some (mkFitted [Fin 0; Fin 0; Fin 0] [0; 0; 0]
                          (np_mean [Fin 0; Fin 0; Fin 0])
                          (np_std [Fin 0; Fin 0; Fin 0]))))
              (pdist_squareform_1d [0; 1; 5]%Q))
    as [scores [labels [H1 [H2 _]]]].
  - unfold fit.
    rewrite (calculate_small default_LOCI (pdist_squareform_1d [0; 1; 5]%Q)
               (square_pdist_1d _)) by (simpl; lia).
    unfold label_of, xgt, xlt, of_Q. simpl.
    rewrite Rltb_false; [reflexivity|].
    unfold Q2R. simpl. lra.
  - exists scores, labels. split; [exact H1 | exact H2].
Defined.

(** * Further properties of the code *)

(** ** Errors of the scoring procedure *)

(** On a square matrix the scoring procedure fails exactly on the empty
    matrix, where [dist_matrix.max()] raises; otherwise no index is ever out
    of range. *)
Theorem calculate_fails_on_empty_only (self : LOCI) (D : matrix) :
  square D ->
  (_calculate_decision_score self D = None <-> D = []).
Proof.
  intros Hsq. split.
  - intros H. destruct D as [|ds D']; [reflexivity|].
    destruct (calculate_total self (ds :: D') Hsq) as [scores Hs]; [discriminate|].
    rewrite Hs in H. discriminate.
  - intros ->. reflexivity.
Qed.

Lemma calculate_fails_on_empty_only_witness :
  _calculate_decision_score default_LOCI (pdist_squareform_1d [0; 1]%Q) = None
  <-> pdist_squareform_1d [0; 1]%Q = [].
Proof.
  apply (calculate_fails_on_empty_only default_LOCI (pdist_squareform_1d [0; 1]%Q)).
  apply square_pdist_1d.
Defined.

(** ** Small datasets *)

Lemma Rsum_zeros (n : nat) : Rsum (repeat 0%R n) = 0%R.
Proof. induction n as [|n IH]; simpl; [reflexivity|]. rewrite IH. lra. Qed.

Lemma np_mean_zeros (n : nat) : 0 < n -> np_mean (repeat (Fin 0) n) = Fin 0.
Proof.
  intros Hn.
  replace (repeat (Fin 0) n) with (map Fin (repeat 0%R n)) by apply map_repeat.
  rewrite np_mean_Fin by (destruct n; [lia | discriminate]).
  rewrite Rsum_zeros. f_equal. unfold Rdiv. ring.
Qed.

Lemma np_std_zeros (n : nat) : 0 < n -> np_std (repeat (Fin 0) n) = Fin 0.
Proof.
  intros Hn.
  replace (repeat (Fin 0) n) with (map Fin (repeat 0%R n)) by apply map_repeat.
  rewrite np_std_Fin by (destruct n; [lia | discriminate]).
  rewrite Rsum_zeros, map_repeat.
  replace ((0 - 0 / INR (length (repeat 0%R n)))
           * (0 - 0 / INR (length (repeat 0%R n))))%R with 0%R
    by (unfold Rdiv; ring).
  rewrite Rsum_zeros. f_equal.
  replace (0 / INR (length (repeat 0%R n)))%R with 0%R by (unfold Rdiv; ring).
  apply sqrt_0.
Qed.

Lemma Q2R_neg_dec (k : Q) : Rltb (Q2R k) 0 = Qltb k 0.
Proof.
  assert (E0 : Q2R 0 = 0%R) by (unfold Q2R; simpl; lra).
  destruct (Qltb k 0) eqn:E.
  - apply Qltb_lt, Qlt_Rlt in E. rewrite E0 in E. apply Rltb_true. exact E.
  - apply Rltb_false. rewrite <- E0. apply Qle_Rle.
    apply Qnot_lt_le. intros H. apply Qltb_lt in H. congruence.
Qed.

(** On a dataset of fewer than 20 points [fit] stores the scores [0], their
    mean [0] and standard deviation [0], and one and the same label for
    every point: [0] when [k >= 0], and [1] when [k < 0], the score [0] being
    then above the cutoff. *)
Theorem fit_fewer_than_20_points (self : LOCI) (D : matrix) :
  square D -> 0 < length D -> length D < 20 ->
  fit self D
  = Some (mkLOCI (contamination self) (_alpha self) (threshold_ self)
            (Some (all_zero_fit (length D)
                     (if Qltb (threshold_ self) 0 then 1 else 0)))).
Proof.
  intros Hsq Hpos HN. unfold fit, all_zero_fit.
  rewrite (calculate_small self D Hsq Hpos HN).
  rewrite (np_mean_zeros _ Hpos), (np_std_zeros _ Hpos), map_repeat.
  unfold label_of, xgt, xlt, of_Q. rewrite Q2R_neg_dec. reflexivity.
Qed.

Lemma fit_fewer_than_20_points_witness :
  fit (LOCI_init (1 # 10) (1 # 2) (-1)) (pdist_squareform_1d [0; 1; 5]%Q)
  = Some (mkLOCI (1 # 10) (1 # 2) (-1) (Some (all_zero_fit 3 1))).
Proof.
  apply (fit_fewer_than_20_points (LOCI_init (1 # 10) (1 # 2) (-1))
           (pdist_squareform_1d [0; 1; 5]%Q)).
  - apply square_pdist_1d.
  - simpl; lia.
  - simpl; lia.
Defined.

(** ** The neighbourhood counter: monotonicity *)

Lemma count_nonzero_mono (f g : Q -> bool) (ds : list Q) :
  (forall d, In d ds -> f d = true -> g d = true) ->
  count_nonzero (map f ds) <= count_nonzero (map g ds).
Proof.
  induction ds as [|d ds IH]; intros H; simpl; [lia|].
  assert (IH' : count_nonzero (map f ds) <= count_nonzero (map g ds))
    by (apply IH; intros d' Hd'; apply H; right; exact Hd').
  destruct (f d) eqn:Ef.
  - rewrite (H d (or_introl eq_refl) Ef). lia.
  - destruct (g d); lia.
Qed.

(** A larger radius samples at least the same points, and, when [alpha] is
    not negative, counts at least as many alpha neighbours. *)
Theorem neighbourhoods_grow_with_radius (self : LOCI) (D : matrix) (p : nat)
    (r r' : Q) :
  (r <= r')%Q ->
  (forall sample sample',
     _get_sampling_N self D p r = Some sample ->
     _get_sampling_N self D p r' = Some sample' ->
     incl sample sample' /\ length sample <= length sample') /\
  ((0 <= _alpha self)%Q ->
   forall n n',
     _get_alpha_n self D (Int p) r = Some (CInt n) ->
     _get_alpha_n self D (Int p) r' = Some (CInt n') ->
     n <= n').
Proof.
  intros Hr. split.
  - intros sample sample' Hs Hs'. unfold _get_sampling_N in *.
    destruct (row D p) as [ds|]; [|discriminate].
    injection Hs as <-. injection Hs' as <-. split.
    + intros j Hj. apply nonzero_In_map in Hj. apply nonzero_In_map.
      destruct Hj as [d [Hd Hle]]. exists d. split; [exact Hd|].
      apply Qleb_le. apply Qleb_le in Hle. apply Qle_trans with r; assumption.
    + unfold nonzero. rewrite !nonzero_from_length.
      apply count_nonzero_mono. intros d _ Hle.
      apply Qleb_le. apply Qleb_le in Hle. apply Qle_trans with r; assumption.
  - intros Ha n n' Hn Hn'. unfold _get_alpha_n in *.
    destruct (row D p) as [ds|]; [|discriminate].
    injection Hn as <-. injection Hn' as <-.
    apply count_nonzero_mono. intros d _ Hlt.
    apply Qltb_lt. apply Qltb_lt in Hlt.
    apply Qlt_le_trans with (r * _alpha self)%Q; [exact Hlt|].
    apply Qmult_le_compat_r; assumption.
Qed.

Lemma neighbourhoods_grow_with_radius_witness :
  incl [0; 1] [0; 1; 2] /\ length [0; 1] <= length [0; 1; 2].
Proof.
  apply (neighbourhoods_grow_with_radius default_LOCI
           (pdist_squareform_1d [0; 1; 5]%Q) 0 1 5).
  - discriminate.
  - vm_compute. reflexivity.
  - vm_compute. reflexivity.
Defined.

(** With [alpha <= 1] and [r >= 0] the alpha neighbourhood of a point lies
    inside its sampling neighbourhood: its alpha count is at most the size of
    its sample. *)
Theorem alpha_count_at_most_sample_size (self : LOCI) (D : matrix) (p : nat)
    (r : Q) (sample : list nat) (n : nat) :
  (_alpha self <= 1)%Q -> (0 <= r)%Q ->
  _get_sampling_N self D p r = Some sample ->
  _get_alpha_n self D (Int p) r = Some (CInt n) ->
  n <= length sample.
Proof.
  intros Ha Hr Hs Hn. unfold _get_sampling_N, _get_alpha_n in *.
  destruct (row D p) as [ds|]; [|discriminate].
  injection Hs as <-. injection Hn as <-.
  unfold nonzero. rewrite nonzero_from_length.
  apply count_nonzero_mono. intros d _ Hlt.
  apply Qleb_le. apply Qltb_lt in Hlt. apply Qlt_le_weak.
  apply Qlt_le_trans with (r * _alpha self)%Q; [exact Hlt|].
  rewrite <- (Qmult_1_r r) at 2. rewrite !(Qmult_comm r).
  apply Qmult_le_compat_r; assumption.
Qed.

Lemma alpha_count_at_most_sample_size_witness : 1 <= length [0; 1].
Proof.
  apply (alpha_count_at_most_sample_size default_LOCI
           (pdist_squareform_1d [0; 1; 5]%Q) 0 1 [0; 1] 1).
  - discriminate.
  - discriminate.
  - vm_compute. reflexivity.
  - vm_compute. reflexivity.
Defined.

(** ** The critical values of a scoring run *)

Lemma filter_none {A : Type} (f : A -> bool) (l : list A) :
  (forall x, In x l -> f x = false) -> filter f l = [].
Proof.
  induction l as [|x l IH]; intros H; simpl; [reflexivity|].
  rewrite (H x (or_introl eq_refl)). apply IH. intros y Hy. apply H. right. exact Hy.
Qed.

Lemma row_in_concat (D : matrix) (p : nat) (ds : list Q) (d : Q) :
  row D p = Some ds -> In d ds -> In d (concat D).
Proof.
  intros Hrow Hd. apply in_concat. exists ds. split; [|exact Hd].
  apply (nth_error_In D p). exact Hrow.
Qed.

(** In a scoring run with [0 < alpha <= 1] on a matrix without negative
    entries, the upper bound [r_max = max(D) / alpha] excludes no distance:
    the critical values of a point are all the positive distances of its
    row and each of them divided by [alpha], twice as many values as the row
    has positive distances. *)
Theorem run_r_max_excludes_nothing (self : LOCI) (D : matrix) (p : nat)
    (ds : list Q) (max_dist : Q) :
  (0 < _alpha self)%Q -> (_alpha self <= 1)%Q ->
  (forall d, In d (concat D) -> (0 <= d)%Q) ->
  np_max (concat D) = Some max_dist -> row D p = Some ds ->
  let positive := filter (fun d => Qltb 0 d) ds in
  exists cv,
    _get_critical_values self D p (max_dist / _alpha self)%Q 0 = Some cv /\
    Permutation cv (positive ++ map (fun d => d / _alpha self)%Q positive) /\
    length cv = 2 * length positive.
Proof.
  intros Ha Ha1 Hnn Hm Hrow positive.
  destruct (np_max_spec _ _ Hm) as [Hin Hall].
  assert (Hbound : (max_dist <= max_dist / _alpha self)%Q).
  { apply Qle_shift_div_l; [exact Ha|].
    rewrite <- (Qmult_1_r max_dist) at 2. rewrite !(Qmult_comm max_dist).
    apply Qmult_le_compat_r; [exact Ha1 | apply Hnn; exact Hin]. }
  assert (Ekept : filter (fun d => Qltb 0 d && Qleb d (max_dist / _alpha self)) ds
                  = positive).
  { apply filter_ext_in. intros d Hd.
    assert (Hle : Qleb d (max_dist / _alpha self) = true).
    { apply Qleb_le. apply Qle_trans with max_dist; [|exact Hbound].
      apply Hall. apply (row_in_concat D p ds d Hrow Hd). }
    rewrite Hle. apply andb_true_r. }
  unfold _get_critical_values. rewrite Hrow, select_filter, Ekept.
  eexists. split; [reflexivity|]. split; [apply np_sort_perm|].
  rewrite (Permutation_length (np_sort_perm _)), length_app, length_map. lia.
Qed.

Lemma run_r_max_excludes_nothing_witness :
  exists cv,
    _get_critical_values default_LOCI (pdist_squareform_1d [0; 1; 5]%Q) 0
      (5 / _alpha default_LOCI)%Q 0 = Some cv /\
    Permutation cv ([1; 5]%Q ++ map (fun d => d / _alpha default_LOCI)%Q [1; 5]%Q) /\
    length cv = 2 * length [1; 5]%Q.
Proof.
  apply (run_r_max_excludes_nothing default_LOCI (pdist_squareform_1d [0; 1; 5]%Q)
           0 [0; 1; 5]%Q 5).
  - reflexivity.
  - discriminate.
  - intros d Hd. apply Qleb_le. revert d Hd. apply forallb_forall.
    vm_compute. reflexivity.
  - vm_compute. reflexivity.
  - vm_compute. reflexivity.
Defined.

(** A point at distance [0] from every point (the dataset is one point
    repeated) has no critical value, and its score is [0] whatever the size
    of the dataset. *)
Theorem coincident_points_score_zero (self : LOCI) (D : matrix) :
  square D -> 0 < length D ->
  (forall d, In d (concat D) -> (d <= 0)%Q) ->
  (forall p r_max, p < length D ->
     _get_critical_values self D p r_max 0 = Some []) /\
  _calculate_decision_score self D = Some (repeat (Fin 0) (length D)).
Proof.
  intros Hsq Hpos Hz.
  assert (Hcv : forall p r_max, p < length D ->
                  _get_critical_values self D p r_max 0 = Some []).
  { intros p r_max Hp. unfold _get_critical_values.
    rewrite (row_lt D p Hp), select_filter, filter_none; [reflexivity|].
    intros d Hd. apply andb_false_iff. left.
    apply not_true_iff_false. intros H. apply Qltb_lt in H.
    apply (Qlt_not_le _ _ H). apply Hz.
    apply (row_in_concat D p _ d (row_lt D p Hp) Hd). }
  split; [exact Hcv|].
  destruct (calculate_total self D Hsq) as [scores Hs].
  { destruct D; [simpl in Hpos; lia | discriminate]. }
  unfold _calculate_decision_score in *.
  destruct (r_max_of self D) as [r_max|]; [|discriminate].
  rewrite <- (map_const_seq (Fin 0) (length D) 0).
  apply traverse_total. intros p Hp. apply in_seq in Hp.
  unfold point_score. rewrite Hcv by lia. reflexivity.
Qed.

Lemma coincident_points_score_zero_witness :
  _calculate_decision_score default_LOCI (pdist_squareform_1d (repeat 1%Q 25))
  = Some (repeat (Fin 0) 25).
Proof.
  apply (coincident_points_score_zero default_LOCI
           (pdist_squareform_1d (repeat 1%Q 25))).
  - apply square_pdist_1d.
  - vm_compute. lia.
  - intros d Hd. apply Qleb_le. revert d Hd. apply forallb_forall.
    vm_compute. reflexivity.
Defined.

(** ** Repeated radii *)

Lemma Qleb_compat_r (d r r' : Q) : (r == r')%Q -> Qleb d r = Qleb d r'.
Proof.
  intros E. destruct (Qleb d r') eqn:H.
  - apply Qleb_le. apply Qleb_le in H. rewrite E. exact H.
  - apply not_true_iff_false. intros H'. apply Qleb_le in H'.
    rewrite E in H'. apply Qleb_le in H'. congruence.
Qed.

Lemma Qltb_compat_r (d b b' : Q) : (b == b')%Q -> Qltb d b = Qltb d b'.
Proof.
  intros E. destruct (Qltb d b') eqn:H.
  - apply Qltb_lt. apply Qltb_lt in H. rewrite E. exact H.
  - apply not_true_iff_false. intros H'. apply Qltb_lt in H'.
    rewrite E in H'. apply Qltb_lt in H'. congruence.
Qed.

Lemma stats_at_compat (self : LOCI) (D : matrix) (p : nat) (r r' : Q) :
  (r == r')%Q -> stats_at self D p r = stats_at self D p r'.
Proof.
  intros E.
  assert (Es : forall ds, map (fun d => Qleb d r) ds = map (fun d => Qleb d r') ds).
  { intros ds. apply map_ext. intros d. apply Qleb_compat_r. exact E. }
  assert (Ea : forall ds, map (fun d => Qltb d (r * _alpha self)%Q) ds
                          = map (fun d => Qltb d (r' * _alpha self)%Q) ds).
  { intros ds. apply map_ext. intros d. apply Qltb_compat_r.
    rewrite E. reflexivity. }
  unfold stats_at, counts_at, _get_sampling_N, _get_alpha_n.
  destruct (row D p) as [ds|]; [|reflexivity].
  rewrite Es, Ea.
  destruct (traverse (row D) (nonzero (map (fun d => Qleb d r') ds))) as [rows|];
    [|reflexivity].
  rewrite (map_ext _ _ (fun ds' => f_equal count_nonzero (Ea ds'))). reflexivity.
Qed.

Lemma scan_repeated (self : LOCI) (D : matrix) (p : nat) (r r' : Q)
    (rest : list Q) (s0 : xreal) :
  (r == r')%Q ->
  scan_radii self D p (r :: r' :: rest) s0 = scan_radii self D p (r' :: rest) s0.
Proof.
  intros E. simpl. rewrite (stats_at_compat self D p r r' E).
  destruct (stats_at self D p r') as [st|]; [|reflexivity].
  destruct (guard st); [|reflexivity].
  destruct (early_exit self st); reflexivity.
Qed.

Lemma scan_radii_cons (self : LOCI) (D : matrix) (p : nat) (r : Q)
    (rest : list Q) (s0 : xreal) :
  scan_radii self D p (r :: rest) s0 =
  match stats_at self D p r with
  | None => None
  | Some st =>
      if guard st then
        if early_exit self st then Some (ratio st)
        else scan_radii self D p rest (ratio st)
      else scan_radii self D p rest s0
  end.
Proof. reflexivity. Qed.

(** A radius equal to the one before it changes nothing: scanning the
    critical values with such repetitions removed (in a sorted array, all
    the repetitions) gives the same score, or the same error. *)
Theorem scan_ignores_repeated_radii (self : LOCI) (D : matrix) (p : nat)
    (cvs : list Q) (s0 : xreal) :
  scan_radii self D p (uniq cvs) s0 = scan_radii self D p cvs s0.
Proof.
  revert s0. induction cvs as [|r rest IH]; intros s0; [reflexivity|].
  destruct rest as [|r' rest']; [reflexivity|].
  change (uniq (r :: r' :: rest'))
    with (if Qeq_bool r r' then uniq (r' :: rest') else r :: uniq (r' :: rest')).
  destruct (Qeq_bool r r') eqn:E.
  - apply Qeq_bool_iff in E. rewrite (scan_repeated self D p r r' rest' s0 E).
    apply IH.
  - rewrite (scan_radii_cons self D p r (uniq (r' :: rest')) s0).
    rewrite (scan_radii_cons self D p r (r' :: rest') s0).
    destruct (stats_at self D p r) as [st|]; [|reflexivity].
    destruct (guard st); [|apply IH].
    destruct (early_exit self st); [reflexivity | apply IH].
Qed.

(** ** The statistics under the guard *)

(** At a radius that satisfies the guard, [n_hat >= 20], [mdef <= 1] and
    [sigma_mdef >= 0] are real numbers; [mdef] is negative exactly when
    [cur_alpha_n > n_hat]; and the ratio is the real [mdef / sigma_mdef]
    when [sigma_mdef] is not zero. *)
Theorem guarded_stats_ranges (n_values : list nat) (cur_alpha_n : nat) :
  guard (stats_of n_values cur_alpha_n) = true ->
  exists nh m sg,
    n_hat (stats_of n_values cur_alpha_n) = Fin nh /\ (20 <= nh)%R /\
    mdef (stats_of n_values cur_alpha_n) = Fin m /\ (m <= 1)%R /\
    sigma_mdef (stats_of n_values cur_alpha_n) = Fin sg /\ (0 <= sg)%R /\
    ((m < 0)%R <-> (nh < INR cur_alpha_n)%R) /\
    (sg <> 0%R -> ratio (stats_of n_values cur_alpha_n) = Fin (m / sg)).
Proof.
  intros G. rewrite guard_stats in G.
  destruct (stats_closed n_values cur_alpha_n G) as [HS E].
  pose proof G as G'. apply guard_dec_spec in G'. destruct G' as [Hne G'].
  pose proof (INR_length_pos n_values Hne) as Hn.
  set (S := INR (list_sum n_values)) in *. set (n := INR (length n_values)) in *.
  set (c := INR cur_alpha_n).
  assert (Hc : (0 <= c)%R) by apply pos_INR.
  assert (Hi : (0 < / S)%R) by (apply Rinv_0_lt_compat; exact HS).
  assert (Hin : (0 < / n)%R) by (apply Rinv_0_lt_compat; exact Hn).
  assert (Em : (IZR (deficit n_values cur_alpha_n) / S = 1 - c * n / S)%R).
  { rewrite IZR_deficit. fold S n c. field. lra. }
  exists (S / n)%R, (IZR (deficit n_values cur_alpha_n) / S)%R,
         (sqrt (IZR (spread n_values)) / S)%R.
  rewrite E. simpl.
  split; [reflexivity|]. split.
  { apply le_INR in G'. rewrite mult_INR in G'. fold S n in G'.
    replace (INR 20) with 20%R in G' by (simpl; lra).
    apply Rmult_le_reg_r with n; [exact Hn|].
    unfold Rdiv. rewrite Rmult_assoc, Rinv_l by lra. lra. }
  split; [reflexivity|]. split.
  { rewrite Em. assert (0 <= c * n / S)%R; [|lra].
    unfold Rdiv. apply Rmult_le_pos; [apply Rmult_le_pos; lra | lra]. }
  split; [reflexivity|]. split.
  { unfold Rdiv. apply Rmult_le_pos; [apply sqrt_pos | lra]. }
  split.
  { rewrite Em. split; intros H.
    - assert (H1 : (1 < c * n / S)%R) by lra.
      apply Rmult_lt_compat_r with (r := S) in H1; [|exact HS].
      unfold Rdiv in H1. rewrite Rmult_assoc, Rinv_l, Rmult_1_r, Rmult_1_l in H1 by lra.
      apply Rmult_lt_reg_r with n; [exact Hn|].
      unfold Rdiv. rewrite Rmult_assoc, Rinv_l by lra. lra.
    - apply Rmult_lt_compat_r with (r := n) in H; [|exact Hn].
      unfold Rdiv in H. rewrite Rmult_assoc, Rinv_l, Rmult_1_r in H by lra.
      assert (H1 : (1 < c * n / S)%R); [|lra].
      apply Rmult_lt_reg_r with S; [exact HS|].
      unfold Rdiv. rewrite Rmult_assoc, Rinv_l by lra. lra. }
  intros Hsg. unfold ratio, xdiv. simpl. rewrite (Reqb_false _ _ Hsg). reflexivity.
Qed.

Lemma guarded_stats_ranges_witness :
  exists nh m sg,
    n_hat (stats_of (repeat 21 21 ++ [1]) 21) = Fin nh /\ (20 <= nh)%R /\
    mdef (stats_of (repeat 21 21 ++ [1]) 21) = Fin m /\ (m <= 1)%R /\
    sigma_mdef (stats_of (repeat 21 21 ++ [1]) 21) = Fin sg /\ (0 <= sg)%R /\
    ((m < 0)%R <-> (nh < INR 21)%R) /\
    (sg <> 0%R -> ratio (stats_of (repeat 21 21 ++ [1]) 21) = Fin (m / sg)).
Proof.
  apply (guarded_stats_ranges (repeat 21 21 ++ [1]) 21).
  rewrite guard_stats. vm_compute. reflexivity.
Defined.

(** ** The cutoff *)

(** Raising [k] never makes a scan stop earlier: radii that do not stop the
    scan of a point under the cutoff [k] do not stop it under a cutoff
    [k' >= k], [alpha] being the same. *)
Theorem larger_cutoff_stops_no_earlier (s1 s2 : LOCI) (D : matrix) (p : nat)
    (cvs : list Q) :
  _alpha s1 = _alpha s2 -> (threshold_ s1 <= threshold_ s2)%Q ->
  no_exit s1 D p cvs -> no_exit s2 D p cvs.
Proof.
  intros Ha Hk Hne r Hr. destruct (Hne r Hr) as [st [Hst Hx]].
  assert (Hst2 : stats_at s2 D p r = Some st).
  { unfold stats_at, counts_at, _get_sampling_N, _get_alpha_n in *.
    rewrite <- Ha. exact Hst. }
  exists st. split; [exact Hst2|].
  destruct (guard st) eqn:G; [|reflexivity]. simpl in *.
  destruct (guarded_stats_finite s1 D p r st Hst G) as [m [sg [Em [Esg Hsg]]]].
  unfold early_exit, xgt, of_Q in *. rewrite Em, Esg in *. simpl in *.
  unfold Rltb in *.
  destruct (Rlt_dec (Q2R (threshold_ s1) * sg) m) as [|N]; [discriminate|].
  destruct (Rlt_dec (Q2R (threshold_ s2) * sg) m) as [Y|]; [|reflexivity].
  exfalso. apply N. apply Qle_Rle in Hk.
  apply Rle_lt_trans with (Q2R (threshold_ s2) * sg)%R; [|exact Y].
  apply Rmult_le_compat_r; assumption.
Qed.

Lemma larger_cutoff_stops_no_earlier_witness :
  no_exit (LOCI_init (1 # 10) (1 # 2) 5) D22 0 [1%Q].
Proof.
  apply (larger_cutoff_stops_no_earlier default_LOCI (LOCI_init (1 # 10) (1 # 2) 5)).
  - reflexivity.
  - discriminate.
  - intros r [<- | []]. exists (stats_of (repeat 21 21 ++ [1]) 21). split.
    + assert (Hc : counts_at default_LOCI D22 0 1 = Some (repeat 21 21 ++ [1], 21))
        by (vm_compute; reflexivity).
      unfold stats_at. rewrite Hc. reflexivity.
    + rewrite guard_stats, early_exit_stats by (vm_compute; reflexivity).
      vm_compute. reflexivity.
Defined.
